(** * budget_forecasting: monthly aggregation and per-category forecast

    A shallow embedding of [budget_forecasting.py].

    Conventions of the embedding.
    - A DataFrame is the list of its rows, in row order; the columns the
      program reads are the fields of the row record.
    - A month key ([df['Month']], a timestamp at the first day of a month,
      produced by [load_ledger]) is the month's ordinal
      [12 * year + (month - 1)] in [Z]; adding [MonthBegin(1)] is [+ 1].
      Timestamps are taken to stay inside the range pandas can represent.
    - Amounts are values of one column dtype [A] with its [zero] and its
      addition [add].  Laws of [add] are assumed only where a statement
      needs them, and are stated there (they hold of exact amounts, not
      of rounded floating-point sums).
    - A [Date] or [Category] cell of the ledger may be blank (NaT, NaN):
      [groupby] puts a row with a blank key in no group.  [Amount] cells
      are filled.  A [Row] is a row that has both its keys; the only
      missing values of a series are the ones [asfreq] introduces for
      months without a row.
    - [argparse], [read_csv] and [ExcelWriter] are library code: the
      parser, the reader and the writer are parameters of [main].
    - A raised Python exception is the [Raise] case of [result]; statements
      run in source order and the first exception ends the call.
    - [SARIMAX] is the module-level name bound at import: [None] when
      statsmodels is missing, otherwise the fitting engine, which is a
      parameter of the development (model, fit and forecast in one call). *)

From Stdlib Require Import ZArith String Bool Lia List.
From Stdlib Require Import Sorting.Sorted Sorting.Permutation.
From Stdlib Require Import Structures.OrdersEx Classes.RelationClasses.
From Stdlib Require Import Floats.PrimFloat.
Import ListNotations.

Open Scope Z_scope.

(* ------------------------------------------------------------------ *)
(** ** Exceptions and the result monad                                 *)
(* ------------------------------------------------------------------ *)

Inductive exception : Type :=
| IndexError                     (* series.iloc[-1] / index[-1] on an empty series *)
| ValueError                     (* pandas: duplicate labels, ragged columns, empty concat *)
| SystemExit (code : Z)          (* argparse rejecting the command line *)
| OSError                        (* ledger file cannot be read *)
| AttributeError                 (* .dt on a Date column that holds no datetime *)
| EngineError (msg : string).    (* anything the fitting engine raises *)

Inductive result (T : Type) : Type :=
| Ok (value : T)
| Raise (e : exception).

Arguments Ok {T} value.
Arguments Raise {T} e.

Definition bind {T U : Type} (r : result T) (k : T -> result U) : result U :=
  match r with
  | Ok v => k v
  | Raise e => Raise e
  end.

Notation "x <- r ;; k" := (bind r (fun x => k))
  (at level 61, r at next level, right associativity).

(** A [for] loop that appends one computed item per element: the first
    exception leaves the loop. *)
Fixpoint for_each {T U : Type} (body : T -> result U) (items : list T)
  : result (list U) :=
  match items with
  | [] => Ok []
  | x :: rest =>
      y <- body x ;;
      ys <- for_each body rest ;;
      Ok (y :: ys)
  end.

Definition is_raise {T : Type} (r : result T) : Prop :=
  exists e, r = Raise e.

(* ------------------------------------------------------------------ *)
(** ** Orders on group keys                                            *)
(* ------------------------------------------------------------------ *)

(** pandas sorts group keys ([sort=True] is the default of [groupby]);
    labels are compared as Python strings, code point by code point,
    which is the order of their UTF-8 bytes. *)

Class KeyOrder {K : Type} (cmp : K -> K -> comparison) : Prop := {
  cmp_eq : forall a b, cmp a b = Eq <-> a = b;
  cmp_antisym : forall a b, cmp b a = CompOpp (cmp a b);
  cmp_trans : forall a b c, cmp a b = Lt -> cmp b c = Lt -> cmp a c = Lt
}.

Definition label_compare : string -> string -> comparison :=
  String_as_OT.compare.

(** Keys of [groupby(['Month', 'Category'])]: months first, then labels. *)
Definition pair_compare (a b : Z * string) : comparison :=
  match Z.compare (fst a) (fst b) with
  | Eq => label_compare (snd a) (snd b)
  | Lt => Lt
  | Gt => Gt
  end.

Definition cmp_eqb {K : Type} (cmp : K -> K -> comparison) (a b : K) : bool :=
  match cmp a b with Eq => true | _ => false end.

Definition cmp_lt {K : Type} (cmp : K -> K -> comparison) (a b : K) : Prop :=
  cmp a b = Lt.

(* ------------------------------------------------------------------ *)
(** ** groupby                                                         *)
(* ------------------------------------------------------------------ *)

Section GroupBy.
Context {R K : Type}.
Variable cmp : K -> K -> comparison.
Variable key : R -> K.

(** The distinct keys, ascending. *)
Fixpoint insert_key (k : K) (ks : list K) : list K :=
  match ks with
  | [] => [k]
  | k' :: rest =>
      match cmp k k' with
      | Lt => k :: ks
      | Eq => ks
      | Gt => k' :: insert_key k rest
      end
  end.

Definition group_keys (rows : list R) : list K :=
  fold_right (fun r ks => insert_key (key r) ks) [] rows.

(** The rows of one group, in the order they have in the frame. *)
Definition get_group (k : K) (rows : list R) : list R :=
  filter (fun r => cmp_eqb cmp (key r) k) rows.

(** [df.groupby(key)]: one (key, sub-frame) pair per distinct key, in
    ascending key order. *)
Definition groupby (rows : list R) : list (K * list R) :=
  map (fun k => (k, get_group k rows)) (group_keys rows).
End GroupBy.

(* ------------------------------------------------------------------ *)
(** ** Frames of the program                                           *)
(* ------------------------------------------------------------------ *)

(** A calendar date of the ledger's [Date] column. *)
Record date : Type := mkDate { year : Z; month : Z; day : Z }.

(** [dt.to_period('M').dt.to_timestamp()]: the first day of the date's
    month, as a month ordinal. *)
Definition to_month (d : date) : Z := 12 * year d + (month d - 1).

(** The dtype of the [Amount] column: the value [fillna(0)] writes and
    the addition [sum()] folds with. *)
Class Dtype (A : Type) : Type := {
  zero : A;
  add : A -> A -> A
}.

(** Exact amounts (integers, or decimals counted in minor units). *)
#[export] Instance Z_dtype : Dtype Z := {|
  zero := 0;
  add := Z.add
|}.

(** float64, the dtype [read_csv] gives a column of decimal amounts:
    IEEE 754 binary64 addition, which rounds. *)
#[export] Instance float64_dtype : Dtype float := {|
  zero := 0%float;
  add := PrimFloat.add
|}.

(** Addition that does not round: the sum of a column does not depend on
    the order or the grouping of its terms. *)
Class ExactAdd (A : Type) `{Dtype A} : Prop := {
  add_assoc : forall x y z : A, add x (add y z) = add (add x y) z;
  add_comm : forall x y : A, add x y = add y x;
  add_zero_l : forall x : A, add zero x = x
}.

(** One record of the CSV export as [read_csv] returns it; a blank
    [Date] or [Category] cell is [None]. *)
Record LedgerRecord (A : Type) : Type := mkLedgerRecord {
  Date : option date;
  l_Category : option string;
  l_Amount : A
}.

(** A row of the ledger frame [load_ledger] returns, by the columns the
    aggregation reads: [Month], [Category], [Amount]; a blank key is
    [None]. *)
Record LedgerRow (A : Type) : Type := mkLedgerRow {
  d_Month : option Z;
  d_Category : option string;
  d_Amount : A
}.

(** A row with the columns [Month], [Category], [Amount]: the ledger
    frame as [aggregate_by_month] reads it, and the aggregated frame. *)
Record Row (A : Type) : Type := mkRow {
  Month : Z;
  Category : string;
  Amount : A
}.

(** A row of the forecast frame: [Month], [Category], [Forecast]. *)
Record ForecastRow (A : Type) : Type := mkForecastRow {
  f_Month : Z;
  f_Category : string;
  Forecast : A
}.

Arguments mkLedgerRecord {A}.
Arguments mkLedgerRow {A}.
Arguments d_Month {A}.
Arguments d_Category {A}.
Arguments d_Amount {A}.
Arguments Date {A}.
Arguments l_Category {A}.
Arguments l_Amount {A}.
Arguments mkRow {A}.
Arguments Month {A}.
Arguments Category {A}.
Arguments Amount {A}.
Arguments mkForecastRow {A}.
Arguments f_Month {A}.
Arguments f_Category {A}.
Arguments Forecast {A}.

(** A series: index labels with their values, in index order. *)
Definition Series (A : Type) : Type := list (Z * A).

Section Aggregation.
Context {A : Type} `{Dtype A}.

(** [load_ledger]: reads the CSV and adds the [Month] column.  On a
    ledger without records the [Date] column read is not datetime-like
    and [.dt] raises AttributeError. *)
Definition load_ledger (read_csv : string -> result (list (LedgerRecord A)))
    (path : string) : result (list (LedgerRow A)) :=
  df <- read_csv path ;;
  match df with
  | [] => Raise AttributeError
  | _ :: _ =>
      Ok (map (fun r => mkLedgerRow (option_map to_month (Date r))
                                    (l_Category r) (l_Amount r)) df)
  end.

(** [Series.sum()] and the per-group sum: accumulate from [zero] in row
    order. *)
Definition col_sum (values : list A) : A := fold_left add values zero.

Definition row_key (r : Row A) : Z * string := (Month r, Category r).

(** [df.groupby(['Month', 'Category'])['Amount'].sum().reset_index()] *)
Definition aggregate_by_month (df : list (Row A)) : list (Row A) :=
  map (fun g => mkRow (fst (fst g)) (snd (fst g)) (col_sum (map Amount (snd g))))
      (groupby pair_compare row_key df).


(** Two rows of one (month, category) bucket. *)
Definition same_bucket (x r : Row A) : bool :=
  (Month x =? Month r) && String.eqb (Category x) (Category r).

(** A row of the ledger frame with both its keys. *)
Definition has_keys (x : LedgerRow A) : bool :=
  match d_Month x, d_Category x with
  | Some _, Some _ => true
  | _, _ => false
  end.

(** [groupby(..., dropna=True)], the default: the rows of the ledger
    frame that are put in a group, those with both keys. *)
Fixpoint dropna_keys (df : list (LedgerRow A)) : list (Row A) :=
  match df with
  | [] => []
  | x :: rest =>
      match d_Month x, d_Category x with
      | Some m, Some c => mkRow m c (d_Amount x) :: dropna_keys rest
      | _, _ => dropna_keys rest
      end
  end.

(** [aggregate_by_month] on the ledger frame, whose key cells may be
    blank. *)
Definition aggregate_ledger (df : list (LedgerRow A)) : list (Row A) :=
  aggregate_by_month (dropna_keys df).

End Aggregation.

(* ------------------------------------------------------------------ *)
(** ** Series builder                                                  *)
(* ------------------------------------------------------------------ *)

(** Consecutive month starts: [n] months from [start] on. *)
Definition months_from (start : Z) (n : nat) : list Z :=
  map (fun i => start + Z.of_nat i) (seq 0 n).

(** [pd.date_range(start, end, freq='MS')]: every month start from
    [start] to [end] inclusive; empty when [end] is before [start]. *)
Definition date_range (start stop : Z) : list Z :=
  months_from start (Z.to_nat (stop - start + 1)).

(** [pd.date_range(start, periods=periods, freq='MS')].  Nothing below
    is stated for a negative [periods]; the range is then taken to be
    empty, as [[last] * periods] is. *)
Definition date_range_periods (start periods : Z) : list Z :=
  months_from start (Z.to_nat periods).

(** [index.min()] and [index.max()] of a non-empty index. *)
Definition index_min (first : Z) (rest : list Z) : Z := fold_left Z.min rest first.
Definition index_max (first : Z) (rest : list Z) : Z := fold_left Z.max rest first.

(** [index.is_unique] *)
Fixpoint is_unique (labels : list Z) : bool :=
  match labels with
  | [] => true
  | m :: rest => negb (existsb (Z.eqb m) rest) && is_unique rest
  end.

(** The last element: [iloc[-1]], [index[-1]]. *)
Fixpoint last_item {T : Type} (l : list T) : option T :=
  match l with
  | [] => None
  | x :: rest =>
      match rest with
      | [] => Some x
      | _ :: _ => last_item rest
      end
  end.

Section SeriesBuilder.
Context {A : Type} `{Dtype A}.

(** [group.set_index('Month')['Amount']] *)
Definition set_index (group : list (Row A)) : Series A :=
  map (fun r => (Month r, Amount r)) group.

(** Label lookup during [reindex]; the missing label gives NaN. *)
Fixpoint get (m : Z) (s : Series A) : option A :=
  match s with
  | [] => None
  | (m', v) :: rest => if Z.eqb m' m then Some v else get m rest
  end.

(** [series.asfreq('MS')]: reindex on the month starts from the
    smallest to the largest label.  An empty series is returned as it
    is; reindexing a series whose labels repeat raises ValueError. *)
Definition asfreq (s : Series A) : result (list (Z * option A)) :=
  match map fst s with
  | [] => Ok []
  | first :: rest =>
      let dti := date_range (index_min first rest) (index_max first rest) in
      if is_unique (first :: rest)
      then Ok (map (fun m => (m, get m s)) dti)
      else Raise ValueError
  end.

(** [.fillna(0)] *)
Definition fillna (s : list (Z * option A)) : Series A :=
  map (fun mv =>
         (fst mv,
          match snd mv with
          | None => zero
          | Some v => v
          end)) s.

(** The value [asfreq('MS').fillna(0)] puts at one label of the grid. *)
Definition filled (s : Series A) (m : Z) : A :=
  match get m s with
  | None => zero
  | Some v => v
  end.

(** [series.iloc[-1]] and [series.index[-1]] *)
Definition iloc_last (s : Series A) : result A :=
  match last_item s with
  | Some mv => Ok (snd mv)
  | None => Raise IndexError
  end.

Definition index_last (s : Series A) : result Z :=
  match last_item s with
  | Some mv => Ok (fst mv)
  | None => Raise IndexError
  end.

(** Line 67 of the source: the regular monthly series of one group. *)
Definition build_series (group : list (Row A)) : result (Series A) :=
  ts <- asfreq (set_index group) ;;
  Ok (fillna ts).
End SeriesBuilder.

(* ------------------------------------------------------------------ *)
(** ** Forecaster and assembler                                        *)
(* ------------------------------------------------------------------ *)

(** The fitting engine: [SARIMAX(series, order=(1, 1, 1),
    seasonal_order=(0, 0, 0, 0)).fit(disp=False).forecast(periods)], the
    values it returns or the exception it raises. *)
Definition Engine (A : Type) : Type := Series A -> Z -> result (list A).

(** The default of the [periods] parameter of [forecast_series] and
    [build_forecast]. *)
Definition default_periods : Z := 6.

Section Forecast.
Context {A : Type} `{Dtype A}.

(** Lines 53-55: [pd.Series([last] * periods)]. *)
Definition naive_forecast (series : Series A) (periods : Z) : result (list A) :=
  last <- iloc_last series ;;
  Ok (repeat last (Z.to_nat periods)).

(** [forecast_series]; the test of line 52 is
    [SARIMAX is None or len(series) < 6]. *)
Definition forecast_series (SARIMAX : option (Engine A))
    (series : Series A) (periods : Z) : result (list A) :=
  match SARIMAX with
  | None => naive_forecast series periods
  | Some engine =>
      if Z.of_nat (length series) <? 6
      then naive_forecast series periods
      else engine series periods
  end.

(** [pd.DataFrame({'Month': fc_index, 'Category': category,
    'Forecast': fc.values})]: the scalar is broadcast, the two arrays
    must have one length. *)
Definition DataFrame (fc_index : list Z) (category : string) (values : list A)
  : result (list (ForecastRow A)) :=
  if Nat.eqb (length fc_index) (length values)
  then Ok (map (fun mv => mkForecastRow (fst mv) category (snd mv))
               (combine fc_index values))
  else Raise ValueError.

(** The body of the loop of [build_forecast] (lines 67-70). *)
Definition category_forecast (SARIMAX : option (Engine A)) (periods : Z)
    (g : string * list (Row A)) : result (list (ForecastRow A)) :=
  ts <- build_series (snd g) ;;
  fc <- forecast_series SARIMAX ts periods ;;
  last_month <- index_last ts ;;
  let fc_index := date_range_periods (last_month + 1) periods in
  DataFrame fc_index (fst g) fc.

(** [pd.concat(frames, ignore_index=True)]: no frame at all raises
    ValueError. *)
Definition pd_concat (frames : list (list (ForecastRow A)))
  : result (list (ForecastRow A)) :=
  match frames with
  | [] => Raise ValueError
  | _ :: _ => Ok (concat frames)
  end.

(** The rows of one category in a forecast frame. *)
Definition category_rows (c : string) (frame : list (ForecastRow A))
  : list (ForecastRow A) :=
  filter (fun r => String.eqb (f_Category r) c) frame.

(** The order of two rows of a forecast frame by category label first
    and month second. *)
Definition forecast_before (a b : ForecastRow A) : Prop :=
  label_compare (f_Category a) (f_Category b) = Lt
  \/ (f_Category a = f_Category b /\ f_Month a < f_Month b).

(** The test of line 52. *)
Definition on_fallback (SARIMAX : option (Engine A)) (series : Series A) : Prop :=
  SARIMAX = None \/ Z.of_nat (List.length series) < 6.

(** An engine that answers every series with [periods] values. *)
Definition engine_delivers (SARIMAX : option (Engine A)) (periods : Z) : Prop :=
  forall engine, SARIMAX = Some engine ->
  forall series, exists values,
    engine series periods = Ok values
    /\ List.length values = Z.to_nat periods.

Definition build_forecast (SARIMAX : option (Engine A))
    (df : list (Row A)) (periods : Z) : result (list (ForecastRow A)) :=
  forecasts <- for_each (category_forecast SARIMAX periods)
                        (groupby label_compare Category df) ;;
  pd_concat forecasts.
End Forecast.

(* ------------------------------------------------------------------ *)
(** ** Command line                                                    *)
(* ------------------------------------------------------------------ *)



Record Namespace : Type := mkNamespace {
  input : string;
  output : string
}.

(** [parser.parse_args()] is argparse at work on [sys.argv]: a parameter
    of [main], of this type.  Both options are declared [required], so a
    namespace that is returned holds a value for each. *)
Definition Parser : Type := list string -> result Namespace.

(** What [save_to_excel] writes: the path and the two sheets. *)
Record Workbook (A : Type) : Type := mkWorkbook {
  path : string;
  Actuals_sheet : list (Row A);
  Forecast_sheet : list (ForecastRow A)
}.

Arguments mkWorkbook {A}.
Arguments path {A}.
Arguments Actuals_sheet {A}.
Arguments Forecast_sheet {A}.

Section Main.
Context {A : Type} `{Dtype A}.

(** [save_to_excel]: both sheets go through [pd.ExcelWriter], which may
    raise (unsupported extension, missing engine, unwritable path). *)
Definition save_to_excel (ExcelWriter : Workbook A -> result unit)
    (actuals : list (Row A)) (forecast : list (ForecastRow A)) (p : string)
  : result (Workbook A) :=
  _ <- ExcelWriter (mkWorkbook p actuals forecast) ;;
  Ok (mkWorkbook p actuals forecast).

(** [main]: the workbook written and the line printed. *)
Definition main (SARIMAX : option (Engine A)) (parse_args : Parser)
    (read_csv : string -> result (list (LedgerRecord A)))
    (ExcelWriter : Workbook A -> result unit)
    (argv : list string) : result (Workbook A * string) :=
  args <- parse_args argv ;;
  df <- load_ledger read_csv (input args) ;;
  let monthly := aggregate_ledger df in
  forecast <- build_forecast SARIMAX monthly default_periods ;;
  wb <- save_to_excel ExcelWriter monthly forecast (output args) ;;
  Ok (wb, ("Forecast saved to " ++ output args)%string).
End Main.

(* ------------------------------------------------------------------ *)
(** ** Sample data                                                     *)
(* ------------------------------------------------------------------ *)

Module Sample.
(** January 2024 is month 24288. *)
Definition jan24 : Z := to_month (mkDate 2024 1 15).

(** The ledger of the rent example: January and March, no February. *)
Definition rent_ledger : list (Row Z) :=
  [ mkRow (jan24 + 2) "Rent" (-1000); mkRow jan24 "Rent" (-600);
    mkRow jan24 "Rent" (-400); mkRow (jan24 + 1) "Food" (-250) ].

(** An engine that repeats the mean, and one that always fails. *)
Definition flat_engine : Engine Z :=
  fun s periods => Ok (repeat (col_sum (map snd s) / Z.of_nat (length s))
                              (Z.to_nat periods)).
Definition failing_engine : Engine Z :=
  fun _ _ => Raise (EngineError "LinAlgError").

(** The same ledger as the CSV export holds it. *)
Definition rent_csv : list (LedgerRecord Z) :=
  [ mkLedgerRecord (Some (mkDate 2024 3 1)) (Some "Rent"%string) (-1000);
    mkLedgerRecord (Some (mkDate 2024 1 3)) (Some "Rent"%string) (-600);
    mkLedgerRecord (Some (mkDate 2024 1 28)) (Some "Rent"%string) (-400);
    mkLedgerRecord (Some (mkDate 2024 2 14)) (Some "Food"%string) (-250) ].

(** A ledger frame with a record whose Category cell is blank. *)
Definition blank_label_frame : list (LedgerRow Z) :=
  [ mkLedgerRow (Some jan24) (Some "Rent"%string) (-1000);
    mkLedgerRow (Some jan24) None (-50) ].


(** Stand-ins for the sample run: a parser that knows the one command
    line of the sample, with the namespace argparse returns for it, and a
    writer that knows its one output path. *)
Definition parse_args : Parser :=
  fun argv =>
    if list_eq_dec string_dec argv
         [ "--input"; "ledger.csv"; "--output"; "forecast.xlsx" ]%string
    then Ok (mkNamespace "ledger.csv" "forecast.xlsx")
    else Raise (SystemExit 2).

Definition ExcelWriter (wb : Workbook Z) : result unit :=
  if String.eqb (path wb) "forecast.xlsx" then Ok tt else Raise OSError.

Definition disk (p : string) : result (list (LedgerRecord Z)) :=
  if String.eqb p "ledger.csv" then Ok rent_csv else Raise OSError.

Definition argv : list string :=
  [ "--input"; "ledger.csv"; "--output"; "forecast.xlsx" ]%string.

(** What a run on that ledger writes when statsmodels is missing. *)
Definition book : Workbook Z :=
  Eval vm_compute in
    match main None parse_args disk ExcelWriter argv with
    | Ok (wb, _) => wb
    | Raise _ => mkWorkbook "" [] []
    end.

(** Eight months of sales. *)
Definition sales : list (Row Z) :=
  map (fun i => mkRow (jan24 + Z.of_nat i) "Sales" (100 + Z.of_nat i)) (seq 0 8).

(** A ledger frame with rent, food and sales, and what is forecast from
    it for 6 months without an engine and with the flat engine. *)
Definition mixed_frame : list (LedgerRow Z) :=
  map (fun r => mkLedgerRow (Some (Month r)) (Some (Category r)) (Amount r))
      (rent_ledger ++ sales).

Definition forecast_without_engine : list (ForecastRow Z) :=
  Eval vm_compute in
    match build_forecast None (aggregate_ledger mixed_frame) 6 with
    | Ok out => out
    | Raise _ => []
    end.

Definition forecast_with_engine : list (ForecastRow Z) :=
  Eval vm_compute in
    match build_forecast (Some flat_engine) (aggregate_ledger mixed_frame) 6 with
    | Ok out => out
    | Raise _ => []
    end.
End Sample.

(* ================================================================== *)
(** * Properties                                                       *)
(* ================================================================== *)

Ltac inv H := inversion H; subst; clear H.

(* ------------------------------------------------------------------ *)
(** ** The key orders                                                  *)
(* ------------------------------------------------------------------ *)

Lemma key_order_of_spec {K : Type} (cmp : K -> K -> comparison)
    (lt : K -> K -> Prop) :
  StrictOrder lt ->
  (forall a b, CompareSpec (a = b) (lt a b) (lt b a) (cmp a b)) ->
  KeyOrder cmp.
Proof.
  intros [Hirr Htr] Hspec.
  assert (Hlt : forall a b, cmp a b = Lt <-> lt a b).
  { intros a b. destruct (Hspec a b) as [-> | Hab | Hba]; split; intros Hx;
      try discriminate; try reflexivity; try assumption.
    - elim (Hirr b Hx).
    - elim (Hirr a (Htr _ _ _ Hx Hba)). }
  assert (Heq : forall a b, cmp a b = Eq <-> a = b).
  { intros a b. destruct (Hspec a b) as [-> | Hab | Hba]; split; intros Hx;
      try discriminate; try reflexivity; try assumption; subst.
    - elim (Hirr b Hab).
    - elim (Hirr b Hba). }
  constructor.
  - exact Heq.
  - intros a b.
    destruct (Hspec a b) as [-> | Hab | Hba]; simpl.
    + apply Heq. reflexivity.
    + destruct (Hspec b a) as [-> | Hba | _]; try reflexivity.
      * elim (Hirr a Hab).
      * elim (Hirr a (Htr _ _ _ Hab Hba)).
    + apply Hlt. exact Hba.
  - intros a b c Hab Hbc. apply Hlt. apply Hlt in Hab, Hbc.
    exact (Htr _ _ _ Hab Hbc).
Qed.

#[export] Instance label_order : KeyOrder label_compare.
Proof.
  apply key_order_of_spec with (lt := String_as_OT.lt).
  - exact String_as_OT.lt_strorder.
  - exact String_as_OT.compare_spec.
Qed.

#[export] Instance month_order : KeyOrder Z.compare.
Proof.
  apply key_order_of_spec with (lt := Z.lt).
  - exact Z.lt_strorder.
  - exact Z.compare_spec.
Qed.

#[export] Instance pair_order : KeyOrder pair_compare.
Proof.
  constructor.
  - intros [m c] [m' c']. unfold pair_compare. simpl.
    destruct (Z.compare_spec m m') as [-> | Hlt | Hgt].
    + rewrite (cmp_eq (cmp := label_compare)). split; congruence.
    + split; [discriminate | intros E; inv E; lia].
    + split; [discriminate | intros E; inv E; lia].
  - intros [m c] [m' c']. unfold pair_compare. simpl.
    rewrite (Z.compare_antisym m m').
    destruct (Z.compare m m'); simpl; try reflexivity.
    apply cmp_antisym.
  - intros [m1 c1] [m2 c2] [m3 c3]. unfold pair_compare. simpl.
    destruct (Z.compare_spec m1 m2) as [-> | H12 | H12]; try discriminate;
      destruct (Z.compare_spec m2 m3) as [-> | H23 | H23]; try discriminate;
      intros Ha Hb.
    + apply (cmp_trans (cmp := label_compare)) with c2; assumption.
    + reflexivity.
    + destruct (Z.compare_spec m1 m3); try lia; reflexivity.
    + destruct (Z.compare_spec m1 m3); try lia; reflexivity.
Qed.

Section KeyOrderFacts.
Context {K : Type} (cmp : K -> K -> comparison) `{!KeyOrder cmp}.

Lemma cmp_refl (a : K) : cmp a a = Eq.
Proof. apply cmp_eq. reflexivity. Qed.

Lemma cmp_eqb_eq (a b : K) : cmp_eqb cmp a b = true <-> a = b.
Proof.
  unfold cmp_eqb. rewrite <- (cmp_eq (cmp := cmp)).
  destruct (cmp a b); split; congruence.
Qed.

Lemma cmp_eqb_refl (a : K) : cmp_eqb cmp a a = true.
Proof. apply cmp_eqb_eq. reflexivity. Qed.

Lemma cmp_eqb_neq (a b : K) : cmp_eqb cmp a b = false <-> a <> b.
Proof.
  rewrite <- cmp_eqb_eq. destruct (cmp_eqb cmp a b); split; congruence.
Qed.

Lemma cmp_gt_lt (a b : K) : cmp a b = Gt -> cmp b a = Lt.
Proof. intros E. rewrite (cmp_antisym a b), E. reflexivity. Qed.

Lemma cmp_lt_irrefl (a : K) : ~ cmp_lt cmp a a.
Proof. unfold cmp_lt. rewrite cmp_refl. discriminate. Qed.

Lemma sorted_keys_nodup (ks : list K) :
  StronglySorted (cmp_lt cmp) ks -> NoDup ks.
Proof.
  induction 1 as [ | k ks _ IH Hall ]; constructor; [ | exact IH ].
  intros Hin. rewrite Forall_forall in Hall.
  exact (cmp_lt_irrefl k (Hall k Hin)).
Qed.
End KeyOrderFacts.

(* ------------------------------------------------------------------ *)
(** ** groupby: keys are the distinct keys of the frame, ascending     *)
(* ------------------------------------------------------------------ *)

Section GroupByFacts.
Context {R K : Type} (cmp : K -> K -> comparison) `{!KeyOrder cmp}.
Variable key : R -> K.

Lemma insert_key_In (k x : K) (ks : list K) :
  In x (insert_key cmp k ks) <-> x = k \/ In x ks.
Proof.
  induction ks as [ | k' ks IH ]; simpl.
  - intuition.
  - destruct (cmp k k') eqn:E; simpl.
    + apply (cmp_eq (cmp := cmp)) in E. subst k'. intuition.
    + intuition.
    + rewrite IH. intuition.
Qed.

Lemma insert_key_sorted (k : K) (ks : list K) :
  StronglySorted (cmp_lt cmp) ks ->
  StronglySorted (cmp_lt cmp) (insert_key cmp k ks).
Proof.
  induction 1 as [ | k' ks Hs IH Hall ]; simpl.
  - constructor; constructor.
  - destruct (cmp k k') eqn:E.
    + constructor; assumption.
    + constructor; [ constructor; assumption | ].
      constructor; [ exact E | ].
      rewrite Forall_forall in *. intros y Hy.
      exact (cmp_trans _ _ _ E (Hall y Hy)).
    + constructor; [ exact IH | ].
      rewrite Forall_forall in *. intros y Hy.
      apply insert_key_In in Hy. destruct Hy as [-> | Hy].
      * exact (cmp_gt_lt cmp _ _ E).
      * exact (Hall y Hy).
Qed.

Lemma group_keys_In (k : K) (rows : list R) :
  In k (group_keys cmp key rows) <-> In k (map key rows).
Proof.
  induction rows as [ | r rows IH ]; simpl.
  - reflexivity.
  - rewrite insert_key_In, IH. intuition.
Qed.

Lemma group_keys_sorted (rows : list R) :
  StronglySorted (cmp_lt cmp) (group_keys cmp key rows).
Proof.
  induction rows as [ | r rows IH ]; simpl.
  - constructor.
  - apply insert_key_sorted. exact IH.
Qed.

Lemma group_keys_nodup (rows : list R) : NoDup (group_keys cmp key rows).
Proof. apply (sorted_keys_nodup cmp), group_keys_sorted. Qed.

Lemma group_keys_nil (rows : list R) :
  group_keys cmp key rows = [] <-> rows = [].
Proof.
  split; [ | intros ->; reflexivity ].
  destruct rows as [ | r rows ]; [ reflexivity | intros E ].
  assert (Hin : In (key r) (group_keys cmp key (r :: rows))).
  { apply group_keys_In. left. reflexivity. }
  rewrite E in Hin. destruct Hin.
Qed.

Lemma get_group_In (k : K) (r : R) (rows : list R) :
  In r (get_group cmp key k rows) <-> In r rows /\ key r = k.
Proof.
  unfold get_group. rewrite filter_In, (cmp_eqb_eq cmp). reflexivity.
Qed.

Lemma get_group_nonempty (k : K) (rows : list R) :
  In k (map key rows) -> get_group cmp key k rows <> [].
Proof.
  intros Hin E. apply in_map_iff in Hin. destruct Hin as (r & Hk & Hr).
  assert (Hg : In r (get_group cmp key k rows)) by (apply get_group_In; auto).
  rewrite E in Hg. destruct Hg.
Qed.

Lemma map_fst_groupby (rows : list R) :
  map fst (groupby cmp key rows) = group_keys cmp key rows.
Proof.
  unfold groupby. rewrite map_map. simpl. apply map_id.
Qed.
End GroupByFacts.

(* ------------------------------------------------------------------ *)
(** ** Sums of exact amounts                                           *)
(* ------------------------------------------------------------------ *)

#[export] Instance Z_exact : ExactAdd Z.
Proof.
  constructor; simpl; intros; lia.
Qed.

Section Sums.
Context {A : Type} `{ExactAdd A}.

Lemma fold_add_from (l : list A) (a : A) :
  fold_left add l a = add a (fold_left add l zero).
Proof.
  revert a. induction l as [ | x l IH ]; intros a; simpl.
  - rewrite add_comm, add_zero_l. reflexivity.
  - rewrite (IH (add a x)), (IH (add zero x)), add_zero_l, add_assoc.
    reflexivity.
Qed.


Lemma col_sum_cons (x : A) (l : list A) :
  col_sum (x :: l) = add x (col_sum l).
Proof.
  unfold col_sum. simpl. rewrite fold_add_from, add_zero_l. reflexivity.
Qed.

End Sums.

(* ------------------------------------------------------------------ *)
(** ** aggregate_by_month                                              *)
(* ------------------------------------------------------------------ *)

Section AggregationFacts.
Context {A : Type} `{Dtype A}.

Lemma aggregate_keys (df : list (Row A)) :
  map row_key (aggregate_by_month df) = group_keys pair_compare row_key df.
Proof.
  unfold aggregate_by_month, groupby. rewrite !map_map. simpl.
  erewrite map_ext; [ apply map_id | ].
  intros [m c]. reflexivity.
Qed.


Lemma same_bucket_key (x r : Row A) :
  same_bucket x r = cmp_eqb pair_compare (row_key x) (row_key r).
Proof.
  unfold same_bucket, cmp_eqb, pair_compare, row_key. simpl.
  destruct (Z.compare_spec (Month x) (Month r)) as [E | L | G].
  - rewrite E, Z.eqb_refl. simpl.
    destruct (String.eqb_spec (Category x) (Category r)) as [-> | N].
    + rewrite (cmp_refl label_compare). reflexivity.
    + destruct (label_compare (Category x) (Category r)) eqn:C; try reflexivity.
      apply (cmp_eq (cmp := label_compare)) in C. contradiction.
  - replace (Month x =? Month r) with false by (symmetry; apply Z.eqb_neq; lia).
    reflexivity.
  - replace (Month x =? Month r) with false by (symmetry; apply Z.eqb_neq; lia).
    reflexivity.
Qed.

Lemma same_bucket_iff (x r : Row A) :
  same_bucket x r = true <-> row_key x = row_key r.
Proof. rewrite same_bucket_key. apply (cmp_eqb_eq pair_compare). Qed.

Lemma aggregate_In (r : Row A) (df : list (Row A)) :
  In r (aggregate_by_month df) <->
  In (row_key r) (map row_key df)
  /\ Amount r = col_sum (map Amount (filter (fun x => same_bucket x r) df)).
Proof.
  unfold aggregate_by_month, groupby. rewrite map_map, in_map_iff. simpl.
  split.
  - intros ([m c] & <- & Hk). simpl. split.
    + apply (group_keys_In pair_compare) in Hk. exact Hk.
    + unfold get_group. f_equal. f_equal. apply filter_ext.
      intros x. rewrite same_bucket_key. reflexivity.
  - intros (Hk & Ha). exists (row_key r). split.
    + destruct r as [m c a]. simpl in *. rewrite Ha.
      unfold get_group. f_equal. f_equal. f_equal. apply filter_ext.
      intros x. rewrite same_bucket_key. reflexivity.
    + apply (group_keys_In pair_compare). exact Hk.
Qed.

Lemma aggregate_keys_nodup (df : list (Row A)) :
  NoDup (map row_key (aggregate_by_month df)).
Proof. rewrite aggregate_keys. apply (group_keys_nodup pair_compare). Qed.

Lemma aggregate_keys_sorted (df : list (Row A)) :
  StronglySorted (cmp_lt pair_compare) (map row_key (aggregate_by_month df)).
Proof. rewrite aggregate_keys. apply (group_keys_sorted pair_compare). Qed.

Lemma aggregate_nil_iff (df : list (Row A)) :
  aggregate_by_month df = [] <-> df = [].
Proof.
  rewrite <- (group_keys_nil pair_compare row_key df), <- aggregate_keys.
  destruct (aggregate_by_month df); simpl; split; congruence.
Qed.
End AggregationFacts.

Section Conservation.
Context {A : Type} `{ExactAdd A}.
Context {R K : Type} (cmp : K -> K -> comparison) `{!KeyOrder cmp}.
Variable key : R -> K.
Variable f : R -> A.


End Conservation.


Section DropnaFacts.
Context {A : Type} `{Dtype A}.

Lemma dropna_keys_In (r : Row A) (df : list (LedgerRow A)) :
  In r (dropna_keys df) <->
  exists x, In x df /\ d_Month x = Some (Month r)
            /\ d_Category x = Some (Category r) /\ d_Amount x = Amount r.
Proof.
  induction df as [ | x df IH ]; simpl.
  - split; [ intros [] | intros (x & [] & _) ].
  - destruct (d_Month x) as [m | ] eqn:Em; [ destruct (d_Category x) as [c | ] eqn:Ec | ].
    + simpl. rewrite IH. split.
      * intros [<- | (y & Hy & Hk)].
        -- exists x. simpl. auto.
        -- exists y. auto.
      * intros (y & [<- | Hy] & Hm & Hc & Ha).
        -- left. destruct r as [rm rc ra]. simpl in *. congruence.
        -- right. exists y. auto.
    + rewrite IH. split.
      * intros (y & Hy & Hk). exists y. auto.
      * intros (y & [<- | Hy] & Hm & Hc & Ha); [ congruence | ].
        exists y. auto.
    + rewrite IH. split.
      * intros (y & Hy & Hk). exists y. auto.
      * intros (y & [<- | Hy] & Hm & Hc & Ha); [ congruence | ].
        exists y. auto.
Qed.

End DropnaFacts.




(** C7.  The monthly aggregation of an empty frame is the empty frame;
    no exception is involved. *)
Theorem aggregate_empty {A : Type} `{Dtype A} :
  aggregate_by_month (@nil (Row A)) = [].
Proof. reflexivity. Qed.

(* ------------------------------------------------------------------ *)
(** ** Month ranges and index bounds                                   *)
(* ------------------------------------------------------------------ *)

Lemma months_from_succ (start : Z) (n : nat) :
  months_from start (S n) = start :: months_from (start + 1) n.
Proof.
  unfold months_from. simpl. rewrite Z.add_0_r. f_equal.
  rewrite <- seq_shift, map_map. apply map_ext. intros i. lia.
Qed.

Lemma months_from_length (start : Z) (n : nat) :
  List.length (months_from start n) = n.
Proof. unfold months_from. rewrite length_map, length_seq. reflexivity. Qed.

Lemma months_from_In (start : Z) (n : nat) (m : Z) :
  In m (months_from start n) <-> start <= m < start + Z.of_nat n.
Proof.
  unfold months_from. rewrite in_map_iff. split.
  - intros (i & <- & Hi). apply in_seq in Hi. lia.
  - intros Hm. exists (Z.to_nat (m - start)). split; [ lia | ].
    apply in_seq. lia.
Qed.

Lemma months_from_nth (start : Z) (n i : nat) :
  (i < n)%nat -> nth i (months_from start n) 0 = start + Z.of_nat i.
Proof.
  revert start i. induction n as [ | n IH ]; intros start i Hi; [ lia | ].
  rewrite months_from_succ. destruct i as [ | i ]; simpl.
  - lia.
  - rewrite IH by lia. lia.
Qed.

Lemma months_from_sorted (start : Z) (n : nat) :
  StronglySorted Z.lt (months_from start n).
Proof.
  revert start. induction n as [ | n IH ]; intros start.
  - constructor.
  - rewrite months_from_succ. constructor; [ apply IH | ].
    apply Forall_forall. intros m Hm. apply months_from_In in Hm. lia.
Qed.

Lemma months_from_nodup (start : Z) (n : nat) : NoDup (months_from start n).
Proof.
  apply (sorted_keys_nodup Z.compare).
  exact (months_from_sorted start n).
Qed.

Lemma months_from_last (start : Z) (n : nat) :
  last_item (months_from start (S n)) = Some (start + Z.of_nat n).
Proof.
  revert start. induction n as [ | n IH ]; intros start.
  - reflexivity.
  - rewrite months_from_succ.
    specialize (IH (start + 1)).
    destruct (months_from (start + 1) (S n)) as [ | y l ] eqn:E.
    + discriminate IH.
    + change (last_item (start :: y :: l)) with (last_item (y :: l)).
      rewrite IH. f_equal. lia.
Qed.

Lemma index_min_spec (first : Z) (rest : list Z) :
  In (index_min first rest) (first :: rest)
  /\ forall m, In m (first :: rest) -> index_min first rest <= m.
Proof.
  unfold index_min. revert first.
  induction rest as [ | x rest IH ]; intros first; simpl.
  - split; [ auto | intros m [<- | []]; lia ].
  - destruct (IH (Z.min first x)) as (Hin & Hle). split.
    + destruct Hin as [E | Hin]; [ | auto ].
      rewrite <- E. destruct (Z.min_spec first x) as [[_ ->] | [_ ->]]; auto.
    + intros m Hm.
      assert (Hmin : fold_left Z.min rest (Z.min first x) <= Z.min first x)
        by (apply Hle; left; reflexivity).
      destruct Hm as [<- | [<- | Hm]]; [ lia | lia | ].
      apply Hle. right. exact Hm.
Qed.

Lemma index_max_spec (first : Z) (rest : list Z) :
  In (index_max first rest) (first :: rest)
  /\ forall m, In m (first :: rest) -> m <= index_max first rest.
Proof.
  unfold index_max. revert first.
  induction rest as [ | x rest IH ]; intros first; simpl.
  - split; [ auto | intros m [<- | []]; lia ].
  - destruct (IH (Z.max first x)) as (Hin & Hle). split.
    + destruct Hin as [E | Hin]; [ | auto ].
      rewrite <- E. destruct (Z.max_spec first x) as [[_ ->] | [_ ->]]; auto.
    + intros m Hm.
      assert (Hmax : Z.max first x <= fold_left Z.max rest (Z.max first x))
        by (apply Hle; left; reflexivity).
      destruct Hm as [<- | [<- | Hm]]; [ lia | lia | ].
      apply Hle. right. exact Hm.
Qed.

Lemma is_unique_nodup (labels : list Z) :
  is_unique labels = true <-> NoDup labels.
Proof.
  induction labels as [ | m rest IH ]; simpl.
  - split; [ constructor | reflexivity ].
  - rewrite andb_true_iff, negb_true_iff, IH. split.
    + intros (Hm & Hr). constructor; [ | exact Hr ].
      intros Hin. assert (E : existsb (Z.eqb m) rest = true).
      { apply existsb_exists. exists m. split; [ exact Hin | apply Z.eqb_refl ]. }
      congruence.
    + intros Hnd. inv Hnd. split; [ | assumption ].
      destruct (existsb (Z.eqb m) rest) eqn:E; [ | reflexivity ].
      apply existsb_exists in E. destruct E as (x & Hx & Hmx).
      apply Z.eqb_eq in Hmx. subst x. contradiction.
Qed.

Lemma last_item_map {T U : Type} (f : T -> U) (l : list T) :
  last_item (map f l) = option_map f (last_item l).
Proof.
  induction l as [ | x [ | y l ] IH ]; try reflexivity.
  exact IH.
Qed.

Lemma last_item_none {T : Type} (l : list T) : last_item l = None <-> l = [].
Proof.
  induction l as [ | x [ | y l ] IH ]; simpl in *; split; try congruence.
  intros E. apply IH in E. discriminate.
Qed.

Lemma date_range_length (lo hi : Z) :
  lo <= hi -> Z.of_nat (List.length (date_range lo hi)) = hi - lo + 1.
Proof. intros Hle. unfold date_range. rewrite months_from_length. lia. Qed.

Lemma date_range_In (lo hi m : Z) :
  In m (date_range lo hi) <-> lo <= m <= hi.
Proof. unfold date_range. rewrite months_from_In. lia. Qed.

Lemma date_range_last (lo hi : Z) :
  lo <= hi -> last_item (date_range lo hi) = Some hi.
Proof.
  intros Hle. unfold date_range.
  replace (Z.to_nat (hi - lo + 1)) with (S (Z.to_nat (hi - lo))) by lia.
  rewrite months_from_last. f_equal. lia.
Qed.

(* ------------------------------------------------------------------ *)
(** ** The series of one category                                      *)
(* ------------------------------------------------------------------ *)

Section SeriesFacts.
Context {A : Type} `{Dtype A}.

Lemma get_notin (m : Z) (s : Series A) :
  ~ In m (map fst s) -> get m s = None.
Proof.
  induction s as [ | [m' v] s IH ]; simpl; intros Hn; [ reflexivity | ].
  destruct (Z.eqb_spec m' m) as [-> | _]; [ elim Hn; auto | ].
  apply IH. intros Hin. apply Hn. auto.
Qed.

Lemma get_In (m : Z) (v : A) (s : Series A) :
  NoDup (map fst s) -> In (m, v) s -> get m s = Some v.
Proof.
  induction s as [ | [m' v'] s IH ]; simpl; intros Hnd Hin; [ destruct Hin | ].
  inv Hnd. destruct Hin as [E | Hin].
  - inv E. rewrite Z.eqb_refl. reflexivity.
  - destruct (Z.eqb_spec m' m) as [-> | _]; [ | apply IH; assumption ].
    elim H2. change m with (fst (m, v)). apply in_map. exact Hin.
Qed.

Lemma map_fst_set_index (group : list (Row A)) :
  map fst (set_index group) = map Month group.
Proof. unfold set_index. rewrite map_map. reflexivity. Qed.

Lemma map_fst_fillna (s : list (Z * option A)) :
  map fst (fillna s) = map fst s.
Proof. unfold fillna. rewrite map_map. reflexivity. Qed.

(** A series that was built comes from a non-empty group only when the
    group's months are distinct. *)
Lemma build_series_inv (group : list (Row A)) (ts : Series A) :
  build_series group = Ok ts -> group <> [] -> NoDup (map Month group).
Proof.
  unfold build_series, asfreq. rewrite map_fst_set_index.
  destruct group as [ | r group ]; [ congruence | ].
  change (map Month (r :: group)) with (Month r :: map Month group).
  cbv iota.
  destruct (is_unique (Month r :: map Month group)) eqn:U.
  - intros _ _. apply is_unique_nodup. exact U.
  - intros E. discriminate E.
Qed.

(** The regular monthly series of a group with distinct months. *)
Lemma build_series_regular (group : list (Row A)) :
  group <> [] -> NoDup (map Month group) ->
  exists ts lo hi,
    build_series group = Ok ts
    /\ In lo (map Month group) /\ In hi (map Month group)
    /\ (forall m, In m (map Month group) -> lo <= m <= hi)
    /\ map fst ts = date_range lo hi
    /\ (forall m v, In (m, v) ts -> ~ In m (map Month group) -> v = zero)
    /\ (forall r, In r group ->
          In (Month r, Amount r) ts).
Proof.
  intros Hne Hnd.
  destruct group as [ | r group ]; [ congruence | ].
  set (rows := r :: group) in *.
  set (lo := index_min (Month r) (map Month group)).
  set (hi := index_max (Month r) (map Month group)).
  destruct (index_min_spec (Month r) (map Month group)) as (Hlo & Hlo').
  destruct (index_max_spec (Month r) (map Month group)) as (Hhi & Hhi').
  fold lo in Hlo, Hlo'. fold hi in Hhi, Hhi'.
  change (Month r :: map Month group) with (map Month rows) in *.
  assert (Hbuild : build_series rows
            = Ok (fillna (map (fun m => (m, get m (set_index rows)))
                              (date_range lo hi)))).
  { unfold build_series, asfreq. rewrite map_fst_set_index.
    change (map Month rows) with (Month r :: map Month group).
    cbv iota. fold lo hi.
    change (Month r :: map Month group) with (map Month rows).
    rewrite (proj2 (is_unique_nodup _) Hnd). reflexivity. }
  assert (Hnd' : NoDup (map fst (set_index rows)))
    by (rewrite map_fst_set_index; exact Hnd).
  clearbody rows lo hi.
  exists (fillna (map (fun m => (m, get m (set_index rows))) (date_range lo hi))),
    lo, hi.
  repeat split.
  - exact Hbuild.
  - exact Hlo.
  - exact Hhi.
  - apply Hlo'. exact H0.
  - apply Hhi'. exact H0.
  - rewrite map_fst_fillna, map_map. simpl. apply map_id.
  - intros m v Hin Hm. unfold fillna in Hin.
    rewrite map_map in Hin. cbn [fst snd] in Hin.
    apply in_map_iff in Hin. destruct Hin as (m' & E & _).
    injection E as Em Ev. subst m'.
    rewrite get_notin in Ev; [ symmetry; exact Ev | ].
    rewrite map_fst_set_index. exact Hm.
  - intros x Hx. unfold fillna. rewrite map_map. cbn [fst snd].
    apply in_map_iff. exists (Month x). split.
    + rewrite (get_In (Month x) (Amount x)); [ reflexivity | exact Hnd' | ].
      unfold set_index. apply in_map_iff. exists x. auto.
    + apply date_range_In. split.
      * apply Hlo'. apply in_map. exact Hx.
      * apply Hhi'. apply in_map. exact Hx.
Qed.

(** In the aggregated frame the months of one category are distinct. *)
Lemma category_months_nodup (c : string) (df : list (Row A)) :
  NoDup (map row_key df) ->
  NoDup (map Month (get_group label_compare Category c df)).
Proof.
  unfold get_group.
  induction df as [ | r df IH ]; simpl; intros Hnd; [ constructor | ].
  inv Hnd. destruct (cmp_eqb label_compare (Category r) c) eqn:E; simpl.
  - constructor; [ | apply IH; assumption ].
    intros Hin. apply in_map_iff in Hin. destruct Hin as (x & Hm & Hx).
    apply filter_In in Hx. destruct Hx as (Hx & Ec).
    apply (cmp_eqb_eq label_compare) in E, Ec.
    apply H2. apply in_map_iff. exists x. split; [ | exact Hx ].
    unfold row_key. congruence.
  - apply IH. assumption.
Qed.

Lemma groupby_In {R K : Type} (cmp : K -> K -> comparison) `{!KeyOrder cmp}
    (key : R -> K) (k : K) (g rows : list R) :
  In (k, g) (groupby cmp key rows) <->
  In k (map key rows) /\ g = get_group cmp key k rows.
Proof.
  unfold groupby. rewrite in_map_iff. split.
  - intros (k' & E & Hk). inv E. split; [ | reflexivity ].
    apply (group_keys_In cmp). exact Hk.
  - intros (Hk & ->). exists k. split; [ reflexivity | ].
    apply (group_keys_In cmp). exact Hk.
Qed.
End SeriesFacts.

(** C3.  For every category of the aggregated frame, the series built
    from its rows runs over every month from the category's first
    observed month [lo] to its last observed month [hi]: the index is the
    month range from [lo] to [hi], strictly increasing, each key one month
    after the one before, without duplicates, of length [hi - lo + 1];
    a month with no aggregated row has the value 0 (and a month with a
    row keeps the row's total). *)
Theorem series_contiguity {A : Type} `{Dtype A}
    (df : list (Row A)) (category : string) (group : list (Row A)) :
  In (category, group) (groupby label_compare Category (aggregate_by_month df)) ->
  exists ts lo hi,
    build_series group = Ok ts
    /\ (In lo (map Month group) /\ forall r, In r group -> lo <= Month r)
    /\ (In hi (map Month group) /\ forall r, In r group -> Month r <= hi)
    /\ map fst ts = date_range lo hi
    /\ Z.of_nat (List.length ts) = hi - lo + 1
    /\ (forall i, (i < List.length ts)%nat ->
          nth i (map fst ts) 0 = lo + Z.of_nat i)
    /\ StronglySorted Z.lt (map fst ts)
    /\ NoDup (map fst ts)
    /\ (forall m, lo <= m <= hi -> In m (map fst ts))
    /\ (forall m v, In (m, v) ts -> ~ In m (map Month group) -> v = zero)
    /\ (forall r, In r group ->
          In (Month r, Amount r) ts).
Proof.
  intros Hg. apply (groupby_In label_compare) in Hg. destruct Hg as (Hc & ->).
  set (group := get_group label_compare Category category (aggregate_by_month df)).
  assert (Hne : group <> []) by (apply (get_group_nonempty label_compare); exact Hc).
  assert (Hnd : NoDup (map Month group))
    by (apply category_months_nodup, aggregate_keys_nodup).
  destruct (build_series_regular group Hne Hnd)
    as (ts & lo & hi & Hts & Hlo & Hhi & Hb & Hidx & Hz & Hv).
  assert (Hle : lo <= hi) by (apply (Hb lo Hlo)).
  assert (Hlen : List.length ts = Z.to_nat (hi - lo + 1)).
  { rewrite <- (length_map fst ts), Hidx. apply months_from_length. }
  exists ts, lo, hi. repeat split; try assumption.
  - intros r Hr. apply Hb. apply in_map. exact Hr.
  - intros r Hr. apply Hb. apply in_map. exact Hr.
  - lia.
  - intros i Hi. rewrite Hidx. apply months_from_nth. lia.
  - rewrite Hidx. apply months_from_sorted.
  - rewrite Hidx. apply months_from_nodup.
  - intros m Hm. rewrite Hidx. apply date_range_In. exact Hm.
Qed.

Lemma series_contiguity_witness :
  exists ts lo hi,
    build_series (get_group label_compare Category "Rent"%string
                    (aggregate_by_month Sample.rent_ledger)) = Ok ts
    /\ map fst ts = date_range lo hi
    /\ Z.of_nat (List.length ts) = hi - lo + 1.
Proof.
  destruct (series_contiguity Sample.rent_ledger "Rent"%string
              (get_group label_compare Category "Rent"%string
                 (aggregate_by_month Sample.rent_ledger)))
    as (ts & lo & hi & Hts & _ & _ & Hidx & Hlen & _).
  - vm_compute. right. left. reflexivity.
  - exists ts, lo, hi. auto.
Defined.

(* ------------------------------------------------------------------ *)
(** ** forecast_series                                                 *)
(* ------------------------------------------------------------------ *)

Section ForecasterFacts.
Context {A : Type} `{Dtype A}.

Lemma iloc_last_nonempty (series : Series A) :
  series <> [] -> exists last, iloc_last series = Ok last.
Proof.
  intros Hne. unfold iloc_last.
  destruct (last_item series) as [mv | ] eqn:E.
  - exists (snd mv). reflexivity.
  - apply last_item_none in E. contradiction.
Qed.

Lemma forecast_series_fallback (SARIMAX : option (Engine A))
    (series : Series A) (periods : Z) :
  on_fallback SARIMAX series ->
  forecast_series SARIMAX series periods = naive_forecast series periods.
Proof.
  unfold forecast_series. intros [-> | Hlen]; [ reflexivity | ].
  destruct SARIMAX as [engine | ]; [ | reflexivity ].
  destruct (Z.ltb_spec (Z.of_nat (List.length series)) 6); [ reflexivity | lia ].
Qed.

Lemma forecast_series_engine (engine : Engine A)
    (series : Series A) (periods : Z) :
  6 <= Z.of_nat (List.length series) ->
  forecast_series (Some engine) series periods = engine series periods.
Proof.
  unfold forecast_series. intros Hlen.
  destruct (Z.ltb_spec (Z.of_nat (List.length series)) 6); [ lia | reflexivity ].
Qed.
End ForecasterFacts.

Lemma last_item_app {T : Type} (pre : list T) (x : T) :
  last_item (pre ++ [x]) = Some x.
Proof.
  induction pre as [ | y pre IH ]; [ reflexivity | ].
  simpl. destruct (pre ++ [x]) as [ | z l ] eqn:E; [ | exact IH ].
  destruct pre; discriminate E.
Qed.

(** C1.  On a category series (it has a last observation [(m, last)],
    after any earlier ones [pre]) with fewer than 6 observations, or with
    no fitting engine, [forecast_series] returns exactly [periods] values,
    each the value [last] of the last observation, for any
    [periods >= 1]; the engine's answer is returned only when an engine
    is there and the series has 6 observations or more. *)
Theorem forecast_series_fallback_exact {A : Type} `{Dtype A}
    (SARIMAX : option (Engine A)) (pre : Series A) (m : Z) (last : A)
    (periods : Z) :
  1 <= periods ->
  (SARIMAX = None \/ Z.of_nat (List.length (pre ++ [(m, last)])) < 6 ->
   forecast_series SARIMAX (pre ++ [(m, last)]) periods
   = Ok (repeat last (Z.to_nat periods))
   /\ Z.of_nat (List.length (repeat last (Z.to_nat periods))) = periods
   /\ forall v, In v (repeat last (Z.to_nat periods)) -> v = last)
  /\ (forall engine, SARIMAX = Some engine ->
      6 <= Z.of_nat (List.length (pre ++ [(m, last)])) ->
      forecast_series SARIMAX (pre ++ [(m, last)]) periods
      = engine (pre ++ [(m, last)]) periods).
Proof.
  intros Hp. split.
  - intros Hfb.
    rewrite (forecast_series_fallback SARIMAX _ periods Hfb).
    unfold naive_forecast, iloc_last. rewrite last_item_app. cbn [bind snd].
    repeat split.
    + rewrite repeat_length. lia.
    + intros v Hv. apply repeat_spec in Hv. exact Hv.
  - intros engine -> Hlen. apply forecast_series_engine. exact Hlen.
Qed.

Lemma forecast_series_fallback_exact_witness :
  forecast_series (Some Sample.failing_engine)
    [(Sample.jan24, -600); (Sample.jan24 + 1, 0); (Sample.jan24 + 2, -1000)] 3
  = Ok [-1000; -1000; -1000].
Proof.
  apply (proj1 (forecast_series_fallback_exact (Some Sample.failing_engine)
                  [(Sample.jan24, -600); (Sample.jan24 + 1, 0)]
                  (Sample.jan24 + 2) (-1000) 3 ltac:(lia))).
  right. simpl. lia.
Defined.

(* ------------------------------------------------------------------ *)
(** ** The loop of build_forecast                                      *)
(* ------------------------------------------------------------------ *)

Lemma for_each_ok {T U : Type} (body : T -> result U) (items : list T)
    (ys : list U) :
  for_each body items = Ok ys <-> Forall2 (fun x y => body x = Ok y) items ys.
Proof.
  revert ys. induction items as [ | x items IH ]; intros ys; simpl.
  - split.
    + intros E. inv E. constructor.
    + intros F. inv F. reflexivity.
  - split.
    + intros E. destruct (body x) as [y | e] eqn:Ex; simpl in E; [ | discriminate ].
      destruct (for_each body items) as [ys' | e]; simpl in E; [ | discriminate ].
      inv E. constructor; [ exact Ex | apply IH; reflexivity ].
    + intros F. inv F. rewrite H1. simpl.
      rewrite (proj2 (IH _) H3). reflexivity.
Qed.

Lemma for_each_raise {T U : Type} (body : T -> result U) (items : list T)
    (x : T) :
  In x items -> is_raise (body x) -> is_raise (for_each body items).
Proof.
  intros Hin (e & He). induction items as [ | x' items IH ]; [ destruct Hin | ].
  simpl. destruct Hin as [-> | Hin].
  - rewrite He. exists e. reflexivity.
  - destruct (body x') as [y | e']; simpl; [ | exists e'; reflexivity ].
    destruct (IH Hin) as (e'' & ->). exists e''. reflexivity.
Qed.

Section AssemblerFacts.
Context {A : Type} `{Dtype A}.

Lemma map_fst_combine {T U : Type} (l : list T) (l' : list U) :
  List.length l = List.length l' -> map fst (combine l l') = l.
Proof.
  revert l'. induction l as [ | x l IH ]; intros [ | y l' ]; simpl;
    intros E; try congruence.
  f_equal. apply IH. congruence.
Qed.

Lemma map_snd_combine {T U : Type} (l : list T) (l' : list U) :
  List.length l = List.length l' -> map snd (combine l l') = l'.
Proof.
  revert l'. induction l as [ | x l IH ]; intros [ | y l' ]; simpl;
    intros E; try congruence.
  f_equal. apply IH. congruence.
Qed.

Lemma map_const_repeat {T U : Type} (c : U) (l : list T) :
  map (fun _ => c) l = repeat c (List.length l).
Proof. induction l as [ | x l IH ]; simpl; congruence. Qed.

Lemma DataFrame_ok (fc_index : list Z) (c : string) (values : list A)
    (rows : list (ForecastRow A)) :
  DataFrame fc_index c values = Ok rows ->
  List.length fc_index = List.length values
  /\ map f_Month rows = fc_index
  /\ map Forecast rows = values
  /\ map f_Category rows = repeat c (List.length fc_index).
Proof.
  unfold DataFrame.
  destruct (Nat.eqb_spec (List.length fc_index) (List.length values)) as [E | _];
    [ | discriminate ].
  intros Hr. inv Hr. rewrite !map_map. cbn [f_Month Forecast f_Category].
  repeat split.
  - exact E.
  - apply map_fst_combine. exact E.
  - apply map_snd_combine. exact E.
  - rewrite map_const_repeat, length_combine, <- E, Nat.min_id. reflexivity.
Qed.

(** What one pass of the loop has computed when it appends a frame. *)
Lemma category_forecast_ok (SARIMAX : option (Engine A)) (periods : Z)
    (c : string) (group : list (Row A)) (rows : list (ForecastRow A)) :
  category_forecast SARIMAX periods (c, group) = Ok rows ->
  exists ts last,
    build_series group = Ok ts
    /\ index_last ts = Ok last
    /\ forecast_series SARIMAX ts periods = Ok (map Forecast rows)
    /\ map f_Month rows = date_range_periods (last + 1) periods
    /\ map f_Category rows = repeat c (Z.to_nat periods).
Proof.
  unfold category_forecast. cbn [fst snd]. intros Hr.
  destruct (build_series group) as [ts | e] eqn:Ets; simpl in Hr; [ | discriminate ].
  destruct (forecast_series SARIMAX ts periods) as [fc | e] eqn:Efc;
    simpl in Hr; [ | discriminate ].
  destruct (index_last ts) as [last | e] eqn:El; simpl in Hr; [ | discriminate ].
  apply DataFrame_ok in Hr. destruct Hr as (_ & Hm & Hv & Hc).
  exists ts, last. rewrite Hv. repeat split; try assumption.
  rewrite Hc. unfold date_range_periods. rewrite months_from_length.
  reflexivity.
Qed.

Lemma category_forecast_length (SARIMAX : option (Engine A)) (periods : Z)
    (g : string * list (Row A)) (rows : list (ForecastRow A)) :
  category_forecast SARIMAX periods g = Ok rows ->
  List.length rows = Z.to_nat periods
  /\ Forall (fun r => f_Category r = fst g) rows.
Proof.
  destruct g as [c group]. intros Hr.
  apply category_forecast_ok in Hr.
  destruct Hr as (ts & last & _ & _ & _ & _ & Hc). split.
  - rewrite <- (length_map f_Category), Hc. apply repeat_length.
  - apply Forall_forall. intros r Hr.
    assert (Hin : In (f_Category r) (map f_Category rows)) by (apply in_map; exact Hr).
    rewrite Hc in Hin. apply repeat_spec in Hin. exact Hin.
Qed.

Lemma build_forecast_ok (SARIMAX : option (Engine A)) (df : list (Row A))
    (periods : Z) (out : list (ForecastRow A)) :
  build_forecast SARIMAX df periods = Ok out <->
  df <> []
  /\ exists blocks,
       Forall2 (fun g b => category_forecast SARIMAX periods g = Ok b)
               (groupby label_compare Category df) blocks
       /\ out = concat blocks.
Proof.
  unfold build_forecast. split.
  - intros Hb.
    destruct (for_each (category_forecast SARIMAX periods)
                (groupby label_compare Category df)) as [blocks | e] eqn:E;
      simpl in Hb; [ | discriminate ].
    apply for_each_ok in E.
    destruct blocks as [ | b blocks ]; simpl in Hb; [ discriminate | ].
    inv Hb. split.
    + intros ->. inv E.
    + exists (b :: blocks). split; [ exact E | reflexivity ].
  - intros (Hne & blocks & F & ->).
    rewrite (proj2 (for_each_ok _ _ _) F). simpl.
    destruct blocks as [ | b blocks ]; [ | reflexivity ].
    exfalso. apply Hne. apply Forall2_length in F.
    unfold groupby in F. rewrite length_map in F. simpl in F.
    apply length_zero_iff_nil in F.
    apply (group_keys_nil label_compare Category). exact F.
Qed.

Lemma category_rows_app (c : string) (l l' : list (ForecastRow A)) :
  category_rows c (l ++ l') = category_rows c l ++ category_rows c l'.
Proof. apply filter_app. Qed.

Lemma category_rows_all (c : string) (l : list (ForecastRow A)) :
  Forall (fun r => f_Category r = c) l -> category_rows c l = l.
Proof.
  unfold category_rows. induction 1 as [ | r l Hr _ IH ]; simpl.
  - reflexivity.
  - rewrite Hr, String.eqb_refl, IH. reflexivity.
Qed.

Lemma category_rows_none (c : string) (l : list (ForecastRow A)) :
  Forall (fun r => f_Category r <> c) l -> category_rows c l = [].
Proof.
  unfold category_rows. induction 1 as [ | r l Hr _ IH ]; simpl.
  - reflexivity.
  - destruct (String.eqb_spec (f_Category r) c); [ contradiction | exact IH ].
Qed.

(** In a concatenation of per-category frames with distinct labels, the
    rows of a category are the frame of that category. *)
Lemma category_rows_concat (body : string * list (Row A) -> result (list (ForecastRow A)))
    (groups : list (string * list (Row A)))
    (blocks : list (list (ForecastRow A))) :
  (forall g b, body g = Ok b -> Forall (fun r => f_Category r = fst g) b) ->
  Forall2 (fun g b => body g = Ok b) groups blocks ->
  NoDup (map fst groups) ->
  forall g, In g groups ->
    body g = Ok (category_rows (fst g) (concat blocks)).
Proof.
  intros Hcat F. induction F as [ | g0 b0 groups blocks Hb F IH ];
    intros Hnd g Hin; [ destruct Hin | ].
  simpl in Hnd. inv Hnd. simpl concat. rewrite category_rows_app.
  assert (Hrest : forall c, ~ In c (map fst groups) ->
                    category_rows c (concat blocks) = []).
  { clear - Hcat F. intros c Hc. induction F as [ | g b groups blocks Hb F IH ];
      [ reflexivity | ].
    simpl. rewrite category_rows_app, IH by (intros Hin; apply Hc; right; exact Hin).
    rewrite app_nil_r. apply category_rows_none.
    eapply Forall_impl; [ | apply (Hcat g b Hb) ].
    intros r -> E. apply Hc. left. exact E. }
  destruct Hin as [-> | Hin].
  - rewrite (category_rows_all _ _ (Hcat g b0 Hb)), (Hrest _ H2), app_nil_r.
    exact Hb.
  - rewrite (category_rows_none (fst g) b0).
    + simpl. apply IH; assumption.
    + eapply Forall_impl; [ | apply (Hcat g0 b0 Hb) ].
      intros r -> E. apply H2. rewrite E. apply in_map. exact Hin.
Qed.

Lemma groupby_keys_nodup (df : list (Row A)) :
  NoDup (map fst (groupby label_compare Category df)).
Proof.
  rewrite (map_fst_groupby label_compare).
  apply (group_keys_nodup label_compare).
Qed.

(** The rows a successful run holds for one category are the frame the
    loop computed for it. *)
Lemma build_forecast_category (SARIMAX : option (Engine A))
    (df : list (Row A)) (periods : Z) (out : list (ForecastRow A))
    (c : string) (group : list (Row A)) :
  build_forecast SARIMAX df periods = Ok out ->
  In (c, group) (groupby label_compare Category df) ->
  category_forecast SARIMAX periods (c, group) = Ok (category_rows c out).
Proof.
  intros Hb Hin. apply build_forecast_ok in Hb.
  destruct Hb as (_ & blocks & F & ->).
  apply (category_rows_concat (category_forecast SARIMAX periods)
           (groupby label_compare Category df) blocks
           (fun g b Hgb => proj2 (category_forecast_length _ _ g b Hgb))
           F (groupby_keys_nodup df) (c, group) Hin).
Qed.
End AssemblerFacts.

Section HorizonFacts.
Context {A : Type} `{Dtype A}.

(** The last label of a built series is the last observed month of the
    group, and no label of the series is later. *)
Lemma series_last_month (group : list (Row A)) (ts : Series A) (last : Z) :
  group <> [] ->
  build_series group = Ok ts ->
  index_last ts = Ok last ->
  In last (map Month group)
  /\ (forall r, In r group -> Month r <= last)
  /\ (forall m, In m (map fst ts) -> m <= last).
Proof.
  intros Hne Hts Hlast.
  assert (Hnd := build_series_inv group ts Hts Hne).
  destruct (build_series_regular group Hne Hnd)
    as (ts' & lo & hi & Hts' & Hlo & Hhi & Hb & Hidx & _).
  rewrite Hts in Hts'. inv Hts'.
  assert (Hle : lo <= hi) by apply (Hb lo Hlo).
  assert (E : last = hi).
  { unfold index_last in Hlast.
    assert (Hl := last_item_map fst ts').
    rewrite Hidx, (date_range_last lo hi Hle) in Hl.
    destruct (last_item ts') as [mv | ]; simpl in Hl; [ | discriminate ].
    inv Hlast. congruence. }
  subst last. repeat split.
  - exact Hhi.
  - intros r Hr. apply Hb. apply in_map. exact Hr.
  - intros m Hm. rewrite Hidx in Hm. apply date_range_In in Hm. lia.
Qed.

Lemma series_nonempty (group : list (Row A)) (ts : Series A) :
  group <> [] -> build_series group = Ok ts -> ts <> [].
Proof.
  intros Hne Hts.
  assert (Hnd := build_series_inv group ts Hts Hne).
  destruct (build_series_regular group Hne Hnd)
    as (ts' & lo & hi & Hts' & Hlo & _ & Hb & Hidx & _).
  rewrite Hts in Hts'. inv Hts'. intros ->.
  assert (Hle : lo <= hi) by apply (Hb lo Hlo).
  assert (Hin : In lo (date_range lo hi)) by (apply date_range_In; lia).
  rewrite <- Hidx in Hin. destruct Hin.
Qed.

Lemma forecast_series_total (SARIMAX : option (Engine A))
    (ts : Series A) (periods : Z) :
  ts <> [] -> engine_delivers SARIMAX periods ->
  exists fc, forecast_series SARIMAX ts periods = Ok fc
             /\ List.length fc = Z.to_nat periods.
Proof.
  intros Hne Hdel.
  assert (Hnaive : exists fc, naive_forecast ts periods = Ok fc
                              /\ List.length fc = Z.to_nat periods).
  { destruct (iloc_last_nonempty ts Hne) as (last & Hl).
    exists (repeat last (Z.to_nat periods)). unfold naive_forecast.
    rewrite Hl. simpl. split; [ reflexivity | apply repeat_length ]. }
  unfold forecast_series. destruct SARIMAX as [engine | ]; [ | exact Hnaive ].
  destruct (Z.of_nat (List.length ts) <? 6); [ exact Hnaive | ].
  apply (Hdel engine eq_refl ts).
Qed.

Lemma category_forecast_total (SARIMAX : option (Engine A)) (periods : Z)
    (c : string) (group : list (Row A)) :
  group <> [] -> NoDup (map Month group) ->
  engine_delivers SARIMAX periods ->
  exists rows, category_forecast SARIMAX periods (c, group) = Ok rows.
Proof.
  intros Hne Hnd Hdel.
  destruct (build_series_regular group Hne Hnd)
    as (ts & lo & hi & Hts & Hlo & _ & Hb & Hidx & _).
  assert (Hts' : ts <> []) by (apply (series_nonempty group); assumption).
  destruct (forecast_series_total SARIMAX ts periods Hts' Hdel) as (fc & Hfc & Hlen).
  assert (Hlast : exists last, index_last ts = Ok last).
  { unfold index_last. destruct (last_item ts) as [mv | ] eqn:E.
    - exists (fst mv). reflexivity.
    - apply last_item_none in E. contradiction. }
  destruct Hlast as (last & Hlast).
  unfold category_forecast. cbn [fst snd].
  rewrite Hts. simpl. rewrite Hfc. simpl. rewrite Hlast. simpl.
  unfold DataFrame, date_range_periods.
  rewrite months_from_length, Hlen, Nat.eqb_refl. eexists. reflexivity.
Qed.

Lemma Forall2_of_total {T U : Type} (P : T -> U -> Prop) (l : list T) :
  (forall x, In x l -> exists y, P x y) -> exists l', Forall2 P l l'.
Proof.
  induction l as [ | x l IH ]; intros Hall.
  - exists []. constructor.
  - destruct (Hall x (or_introl eq_refl)) as (y & Hy).
    destruct (IH (fun z Hz => Hall z (or_intror Hz))) as (l' & Hl').
    exists (y :: l'). constructor; assumption.
Qed.

(** With distinct (month, category) keys and an engine that delivers,
    [build_forecast] returns a frame. *)
Lemma build_forecast_returns (SARIMAX : option (Engine A))
    (df : list (Row A)) (periods : Z) :
  df <> [] -> NoDup (map row_key df) ->
  engine_delivers SARIMAX periods ->
  exists out, build_forecast SARIMAX df periods = Ok out.
Proof.
  intros Hne Hnd Hdel.
  destruct (Forall2_of_total
              (fun g b => category_forecast SARIMAX periods g = Ok b)
              (groupby label_compare Category df)) as (blocks & F).
  - intros [c group] Hg. apply (groupby_In label_compare) in Hg.
    destruct Hg as (Hc & ->). apply category_forecast_total.
    + apply (get_group_nonempty label_compare). exact Hc.
    + apply category_months_nodup. exact Hnd.
    + exact Hdel.
  - exists (concat blocks). apply build_forecast_ok. split; [ exact Hne | ].
    exists blocks. split; [ exact F | reflexivity ].
Qed.
End HorizonFacts.

(** C2.  In the frame [build_forecast] returns, every category of the
    input has exactly [periods] rows; their months are the [periods]
    consecutive months that start one month after [last], the last month
    of the category's series (its last observed month), in chronological
    order without gap; none of them is a month of the series or of an
    actual row of the category.  And [build_forecast] does return a frame
    when the (month, category) keys of the input are distinct, as the
    aggregation leaves them, and the engine, if present, delivers. *)
Theorem forecast_horizon {A : Type} `{Dtype A}
    (SARIMAX : option (Engine A)) (df : list (Row A)) (periods : Z) :
  0 <= periods ->
  (forall out, build_forecast SARIMAX df periods = Ok out ->
   forall c, In c (map Category df) ->
   exists ts last,
     build_series (get_group label_compare Category c df) = Ok ts
     /\ index_last ts = Ok last
     /\ (exists r, In r df /\ Category r = c /\ Month r = last)
     /\ (forall r, In r df -> Category r = c -> Month r <= last)
     /\ map f_Month (category_rows c out) = date_range_periods (last + 1) periods
     /\ Z.of_nat (List.length (category_rows c out)) = periods
     /\ (forall i, (i < List.length (category_rows c out))%nat ->
           nth i (map f_Month (category_rows c out)) 0 = last + 1 + Z.of_nat i)
     /\ StronglySorted Z.lt (map f_Month (category_rows c out))
     /\ (forall m, In m (map f_Month (category_rows c out)) ->
           last < m /\ ~ In m (map fst ts)
           /\ forall r, In r df -> Category r = c -> Month r <> m))
  /\ (df <> [] -> NoDup (map row_key df) -> engine_delivers SARIMAX periods ->
      exists out, build_forecast SARIMAX df periods = Ok out).
Proof.
  intros Hp. split; [ | apply build_forecast_returns ].
  intros out Hout c Hc.
  set (group := get_group label_compare Category c df).
  assert (Hg : In (c, group) (groupby label_compare Category df))
    by (apply (groupby_In label_compare); auto).
  assert (Hne : group <> []) by (apply (get_group_nonempty label_compare); exact Hc).
  assert (Hcf := build_forecast_category SARIMAX df periods out c group Hout Hg).
  destruct (category_forecast_ok _ _ _ _ _ Hcf)
    as (ts & last & Hts & Hlast & _ & Hm & Hcat).
  destruct (series_last_month group ts last Hne Hts Hlast) as (Hin & Hmax & Hser).
  assert (Hlen : List.length (category_rows c out) = Z.to_nat periods).
  { rewrite <- (length_map f_Month), Hm. apply months_from_length. }
  exists ts, last. repeat split; try assumption.
  - apply in_map_iff in Hin. destruct Hin as (r & Hr & Hrg).
    apply (get_group_In label_compare) in Hrg. exists r. tauto.
  - intros r Hr Hrc. apply Hmax. apply (get_group_In label_compare). auto.
  - lia.
  - intros i Hi. rewrite Hm. unfold date_range_periods.
    rewrite months_from_nth by lia. reflexivity.
  - rewrite Hm. apply months_from_sorted.
  - rewrite Hm in H0. apply months_from_In in H0. lia.
  - rewrite Hm in H0. apply months_from_In in H0.
    intros Hs. apply Hser in Hs. lia.
  - rewrite Hm in H0. apply months_from_In in H0.
    intros r Hr Hrc E.
    assert (Month r <= last)
      by (apply Hmax; apply (get_group_In label_compare); auto).
    lia.
Qed.

Lemma forecast_horizon_witness :
  exists out,
    build_forecast None (aggregate_by_month Sample.rent_ledger) 3 = Ok out
    /\ map f_Month (category_rows "Rent"%string out)
       = [Sample.jan24 + 3; Sample.jan24 + 4; Sample.jan24 + 5].
Proof.
  destruct (forecast_horizon None (aggregate_by_month Sample.rent_ledger) 3)
    as (Hrows & Hret); [ lia | ].
  destruct Hret as (out & Hout).
  - discriminate.
  - apply aggregate_keys_nodup.
  - intros engine E. discriminate E.
  - exists out. split; [ exact Hout | ].
    destruct (Hrows out Hout "Rent"%string) as (ts & last & Hts & Hlast & _ & _ & Hm & _).
    + vm_compute. auto.
    + rewrite Hm. vm_compute in Hts. injection Hts as <-.
      vm_compute in Hlast. injection Hlast as <-. reflexivity.
Defined.

(** C10.  The frame [build_forecast] returns is the concatenation of one
    block per category: each block has [periods] rows, all of its rows
    carry the block's label, the labels are the distinct categories of the
    input, and the blocks follow the ascending order of their labels. *)
Theorem forecast_blocks_sorted {A : Type} `{Dtype A}
    (SARIMAX : option (Engine A)) (df : list (Row A)) (periods : Z)
    (out : list (ForecastRow A)) :
  0 <= periods ->
  build_forecast SARIMAX df periods = Ok out ->
  exists labels blocks,
    out = concat blocks
    /\ Forall2 (fun c b => Z.of_nat (List.length b) = periods
                           /\ Forall (fun r => f_Category r = c) b)
               labels blocks
    /\ StronglySorted (fun a b => label_compare a b = Lt) labels
    /\ NoDup labels
    /\ (forall c, In c labels <-> In c (map Category df))
    /\ map f_Category out = flat_map (fun c => repeat c (Z.to_nat periods)) labels.
Proof.
  intros Hp Hout. apply build_forecast_ok in Hout.
  destruct Hout as (_ & blocks & F & ->).
  exists (group_keys label_compare Category df), blocks.
  rewrite <- (map_fst_groupby label_compare Category df).
  assert (F' : Forall2 (fun g b => List.length b = Z.to_nat periods
                                   /\ Forall (fun r => f_Category r = fst g) b)
                       (groupby label_compare Category df) blocks).
  { eapply Forall2_impl; [ | exact F ].
    intros g b Hgb. exact (category_forecast_length _ _ g b Hgb). }
  clear F. repeat split.
  - induction F' as [ | g b gs bs (Hlen & Hcat) _ IH ]; constructor.
    + split; [ lia | exact Hcat ].
    + exact IH.
  - rewrite (map_fst_groupby label_compare).
    apply (group_keys_sorted label_compare).
  - apply groupby_keys_nodup.
  - rewrite (map_fst_groupby label_compare). apply (group_keys_In label_compare).
  - rewrite (map_fst_groupby label_compare). apply (group_keys_In label_compare).
  - induction F' as [ | g b gs bs (Hlen & Hcat) _ IH ]; [ reflexivity | ].
    simpl. rewrite map_app, IH. f_equal.
    rewrite <- Hlen. clear - Hcat.
    induction Hcat as [ | r b Hr _ IHb ]; simpl; congruence.
Qed.

Lemma forecast_blocks_sorted_witness :
  exists labels,
    map f_Category
      (match build_forecast None (aggregate_by_month Sample.rent_ledger) 2 with
       | Ok out => out
       | Raise _ => []
       end)
    = flat_map (fun c => repeat c 2) labels
    /\ StronglySorted (fun a b => label_compare a b = Lt) labels.
Proof.
  destruct (forecast_blocks_sorted None (aggregate_by_month Sample.rent_ledger) 2
              [ mkForecastRow (Sample.jan24 + 2) "Food" (-250);
                mkForecastRow (Sample.jan24 + 3) "Food" (-250);
                mkForecastRow (Sample.jan24 + 3) "Rent" (-1000);
                mkForecastRow (Sample.jan24 + 4) "Rent" (-1000) ])
    as (labels & blocks & _ & _ & Hs & _ & _ & Hc).
  - lia.
  - reflexivity.
  - exists labels. split; [ exact Hc | exact Hs ].
Defined.

(** C5.  When the series of a category has 6 observations or more and the
    engine raises on it, [forecast_series] raises the same exception (the
    repeated last value is not returned in its place), the pass of the
    loop for that category raises it, and [build_forecast] ends with an
    exception: nothing is returned for the run. *)
Theorem fit_error_is_fatal {A : Type} `{Dtype A}
    (engine : Engine A) (df : list (Row A)) (periods : Z)
    (c : string) (group : list (Row A)) (ts : Series A) (e : exception) :
  In (c, group) (groupby label_compare Category df) ->
  build_series group = Ok ts ->
  6 <= Z.of_nat (List.length ts) ->
  engine ts periods = Raise e ->
  forecast_series (Some engine) ts periods = Raise e
  /\ forecast_series (Some engine) ts periods <> naive_forecast ts periods
  /\ category_forecast (Some engine) periods (c, group) = Raise e
  /\ is_raise (build_forecast (Some engine) df periods)
  /\ forall out, build_forecast (Some engine) df periods <> Ok out.
Proof.
  intros Hg Hts Hlen He.
  assert (Hfs : forecast_series (Some engine) ts periods = Raise e)
    by (rewrite forecast_series_engine by exact Hlen; exact He).
  assert (Hcf : category_forecast (Some engine) periods (c, group) = Raise e).
  { unfold category_forecast. cbn [fst snd]. rewrite Hts. cbn [bind].
    rewrite Hfs. reflexivity. }
  assert (Hbf : is_raise (build_forecast (Some engine) df periods)).
  { unfold build_forecast.
    destruct (for_each_raise (category_forecast (Some engine) periods)
                (groupby label_compare Category df) (c, group) Hg) as (e' & He').
    - exists e. exact Hcf.
    - rewrite He'. exists e'. reflexivity. }
  split; [ exact Hfs | split; [ | split; [ exact Hcf | split; [ exact Hbf | ] ] ] ].
  - rewrite Hfs. unfold naive_forecast.
    assert (Hne : ts <> []) by (intros ->; simpl in Hlen; lia).
    destruct (iloc_last_nonempty ts Hne) as (last & ->). discriminate.
  - intros out Hout. destruct Hbf as (e' & He'). congruence.
Qed.

Lemma fit_error_is_fatal_witness :
  build_forecast (Some Sample.failing_engine)
    (aggregate_by_month (Sample.rent_ledger ++ Sample.sales)) 6
  <> Ok [].
Proof.
  refine (proj2 (proj2 (proj2 (proj2
    (fit_error_is_fatal Sample.failing_engine
       (aggregate_by_month (Sample.rent_ledger ++ Sample.sales)) 6
       "Sales"%string
       (get_group label_compare Category "Sales"%string
          (aggregate_by_month (Sample.rent_ledger ++ Sample.sales)))
       (map (fun i => (Sample.jan24 + Z.of_nat i, 100 + Z.of_nat i)) (seq 0 8))
       (EngineError "LinAlgError") _ _ _ _)))) []).
  - vm_compute. auto.
  - reflexivity.
  - simpl. lia.
  - reflexivity.
Defined.

(** C9.  On a frame without rows (no category at all, as the aggregation
    of an empty ledger gives), [build_forecast] raises ValueError: the
    list of per-category frames handed to [pd.concat] is empty.  No frame
    is returned, the empty one included. *)
Theorem build_forecast_empty_raises {A : Type} `{Dtype A}
    (SARIMAX : option (Engine A)) (periods : Z) :
  build_forecast SARIMAX (aggregate_by_month []) periods = Raise ValueError
  /\ build_forecast SARIMAX [] periods = Raise ValueError
  /\ for_each (category_forecast SARIMAX periods)
       (groupby label_compare Category (@nil (Row A))) = Ok []
  /\ build_forecast SARIMAX [] periods <> Ok [].
Proof.
  repeat split. discriminate.
Qed.

(* ------------------------------------------------------------------ *)
(** ** Runs of the pipeline                                            *)
(* ------------------------------------------------------------------ *)

Lemma for_each_ext {T U : Type} (body body' : T -> result U) (items : list T) :
  (forall x, In x items -> body x = body' x) ->
  for_each body items = for_each body' items.
Proof.
  induction items as [ | x items IH ]; intros Hext; simpl.
  - reflexivity.
  - rewrite (Hext x (or_introl eq_refl)), (IH (fun z Hz => Hext z (or_intror Hz))).
    reflexivity.
Qed.

Section PipelineFacts.
Context {A : Type} `{Dtype A}.


(** On the fallback path the pass of the loop does not consult the
    engine. *)
Lemma category_forecast_fallback (S1 S2 : option (Engine A)) (periods : Z)
    (g : string * list (Row A)) :
  (forall ts, build_series (snd g) = Ok ts ->
              on_fallback S1 ts /\ on_fallback S2 ts) ->
  category_forecast S1 periods g = category_forecast S2 periods g.
Proof.
  intros Hfb. unfold category_forecast.
  destruct (build_series (snd g)) as [ts | e]; cbn [bind]; [ | reflexivity ].
  destruct (Hfb ts eq_refl) as (H1 & H2).
  rewrite (forecast_series_fallback S1 ts periods H1),
          (forecast_series_fallback S2 ts periods H2).
  reflexivity.
Qed.
End PipelineFacts.

(** C8.  Two runs of aggregation and forecast on the same ledger frame,
    whatever the engine of each run is or does.  Both runs forecast from
    the one aggregated table the frame determines.  For every category
    whose series is on the fallback path in both runs, the two forecast
    frames hold the same rows; and when every category is, the two runs
    have the same outcome, frame or exception. *)
Theorem pipeline_determinism {A : Type} `{Dtype A}
    (S1 S2 : option (Engine A)) (df : list (LedgerRow A)) (periods : Z) :
  (forall out1 out2 c group ts,
     build_forecast S1 (aggregate_ledger df) periods = Ok out1 ->
     build_forecast S2 (aggregate_ledger df) periods = Ok out2 ->
     In (c, group) (groupby label_compare Category (aggregate_ledger df)) ->
     build_series group = Ok ts ->
     on_fallback S1 ts -> on_fallback S2 ts ->
     category_rows c out1 = category_rows c out2)
  /\ ((forall c group ts,
        In (c, group) (groupby label_compare Category (aggregate_ledger df)) ->
        build_series group = Ok ts ->
        on_fallback S1 ts /\ on_fallback S2 ts) ->
      build_forecast S1 (aggregate_ledger df) periods
      = build_forecast S2 (aggregate_ledger df) periods).
Proof.
  split.
  - intros out1 out2 c group ts Hf1 Hf2 Hg Hts Hfb1 Hfb2.
    assert (E1 := build_forecast_category S1 _ _ _ c group Hf1 Hg).
    assert (E2 := build_forecast_category S2 _ _ _ c group Hf2 Hg).
    rewrite (category_forecast_fallback S1 S2 periods (c, group)) in E1.
    + congruence.
    + cbn [snd]. intros ts' Hts'. rewrite Hts in Hts'. inv Hts'. auto.
  - intros Hall. unfold build_forecast. f_equal. apply for_each_ext.
    intros [c group] Hg. apply category_forecast_fallback.
    cbn [snd]. intros ts Hts. exact (Hall c group ts Hg Hts).
Qed.

Lemma pipeline_determinism_witness :
  category_rows "Rent"%string Sample.forecast_without_engine
  = category_rows "Rent"%string Sample.forecast_with_engine
  /\ category_rows "Sales"%string Sample.forecast_without_engine
     <> category_rows "Sales"%string Sample.forecast_with_engine.
Proof.
  split.
  - pose proof (proj1 (pipeline_determinism None (Some Sample.flat_engine)
                         Sample.mixed_frame 6)
                  Sample.forecast_without_engine Sample.forecast_with_engine "Rent"%string
                  (get_group label_compare Category "Rent"%string
                     (aggregate_ledger Sample.mixed_frame))
                  [(Sample.jan24, -1000); (Sample.jan24 + 1, 0);
                   (Sample.jan24 + 2, -1000)]) as Hrows.
    apply Hrows.
    + reflexivity.
    + reflexivity.
    + vm_compute. auto.
    + reflexivity.
    + left. reflexivity.
    + right. simpl. lia.
  - vm_compute. discriminate.
Defined.




(* ------------------------------------------------------------------ *)
(** ** The scenarios of the specification                              *)
(* ------------------------------------------------------------------ *)

(** Rent in January and March: February is filled with 0, and the three
    forecast months are April to June with the March value. *)
Example rent_scenario :
  exists df,
    load_ledger Sample.disk "ledger.csv" = Ok df
    /\ build_series (get_group label_compare Category "Rent"%string
                       (aggregate_ledger df))
       = Ok [ (Sample.jan24, -1000); (Sample.jan24 + 1, 0);
              (Sample.jan24 + 2, -1000) ]
    /\ category_rows "Rent"%string
         match build_forecast None (aggregate_ledger df) 3 with
         | Ok out => out
         | Raise _ => []
         end
       = [ mkForecastRow (Sample.jan24 + 3) "Rent" (-1000);
           mkForecastRow (Sample.jan24 + 4) "Rent" (-1000);
           mkForecastRow (Sample.jan24 + 5) "Rent" (-1000) ].
Proof. eexists. split; [ reflexivity | split; reflexivity ]. Qed.

(** Eight months of sales go to the engine, three months of rent do not:
    both categories get their [periods] rows. *)
Example two_paths_scenario :
  build_forecast (Some Sample.flat_engine)
    (aggregate_by_month (Sample.rent_ledger ++ Sample.sales)) 2
  = Ok [ mkForecastRow (Sample.jan24 + 2) "Food" (-250);
         mkForecastRow (Sample.jan24 + 3) "Food" (-250);
         mkForecastRow (Sample.jan24 + 3) "Rent" (-1000);
         mkForecastRow (Sample.jan24 + 4) "Rent" (-1000);
         mkForecastRow (Sample.jan24 + 8) "Sales" 103;
         mkForecastRow (Sample.jan24 + 9) "Sales" 103 ].
Proof. reflexivity. Qed.

(* ================================================================== *)
(** * Further properties of the program                                *)
(* ================================================================== *)

(* ------------------------------------------------------------------ *)
(** ** The aggregated frame is a canonical form                        *)
(* ------------------------------------------------------------------ *)

Lemma pair_compare_lt (a b : Z * string) :
  pair_compare a b = Lt <->
  fst a < fst b \/ (fst a = fst b /\ label_compare (snd a) (snd b) = Lt).
Proof.
  unfold pair_compare.
  destruct (Z.compare_spec (fst a) (fst b)) as [E | L | G].
  - split; [ auto | intros [L | (_ & L)]; [ lia | exact L ] ].
  - split; auto.
  - split; [ discriminate | intros [L | (E & _)]; lia ].
Qed.

Lemma StronglySorted_map {T U : Type} (R : U -> U -> Prop) (f : T -> U)
    (l : list T) :
  StronglySorted R (map f l) <-> StronglySorted (fun a b => R (f a) (f b)) l.
Proof.
  induction l as [ | x l IH ]; simpl.
  - split; constructor.
  - split; intros Hs; inv Hs; constructor.
    + apply IH. assumption.
    + rewrite Forall_map in H2. exact H2.
    + apply IH. assumption.
    + rewrite Forall_map. assumption.
Qed.

Lemma StronglySorted_weaken {T : Type} (R R' : T -> T -> Prop) (l : list T) :
  (forall a b, R a b -> R' a b) -> StronglySorted R l -> StronglySorted R' l.
Proof.
  intros Himp. induction 1 as [ | x l _ IH Hall ]; constructor; [ exact IH | ].
  eapply Forall_impl; [ | exact Hall ]. intros b. apply Himp.
Qed.

Section CanonicalKeys.
Context {R K : Type} (cmp : K -> K -> comparison) `{!KeyOrder cmp}.
Variable key : R -> K.

Lemma insert_key_length (k : K) (ks : list K) :
  (List.length (insert_key cmp k ks) <= S (List.length ks))%nat.
Proof.
  induction ks as [ | k' ks IH ]; simpl; [ lia | ].
  destruct (cmp k k'); simpl; lia.
Qed.

Lemma group_keys_length (rows : list R) :
  (List.length (group_keys cmp key rows) <= List.length rows)%nat.
Proof.
  induction rows as [ | r rows IH ]; simpl; [ lia | ].
  pose proof (insert_key_length (key r) (group_keys cmp key rows)). lia.
Qed.

Lemma insert_key_front (k : K) (ks : list K) :
  Forall (cmp_lt cmp k) ks -> insert_key cmp k ks = k :: ks.
Proof.
  intros Hall. destruct ks as [ | k' ks ]; [ reflexivity | ].
  inv Hall. simpl. unfold cmp_lt in H1. rewrite H1. reflexivity.
Qed.

Lemma group_keys_of_sorted (rows : list R) :
  StronglySorted (cmp_lt cmp) (map key rows) ->
  group_keys cmp key rows = map key rows.
Proof.
  induction rows as [ | r rows IH ]; simpl; intros Hs; [ reflexivity | ].
  inv Hs. rewrite (IH H1). apply insert_key_front. exact H2.
Qed.

Lemma get_group_absent (k : K) (rows : list R) :
  ~ In k (map key rows) -> get_group cmp key k rows = [].
Proof.
  unfold get_group.
  induction rows as [ | z rows IH ]; simpl; intros Hk; [ reflexivity | ].
  destruct (cmp_eqb cmp (key z) k) eqn:E.
  - apply (cmp_eqb_eq cmp) in E. elim Hk. left. exact E.
  - apply IH. intros Hin. apply Hk. right. exact Hin.
Qed.

Lemma get_group_single (r : R) (rows : list R) :
  NoDup (map key rows) -> In r rows ->
  get_group cmp key (key r) rows = [r].
Proof.
  induction rows as [ | x rows IH ]; simpl; intros Hnd Hin; [ destruct Hin | ].
  inv Hnd. unfold get_group in *. simpl.
  destruct Hin as [-> | Hin].
  - rewrite (cmp_eqb_refl cmp). f_equal. apply get_group_absent. exact H1.
  - destruct (cmp_eqb cmp (key x) (key r)) eqn:E.
    + apply (cmp_eqb_eq cmp) in E. elim H1. rewrite E. apply in_map. exact Hin.
    + apply IH; assumption.
Qed.

Lemma groupby_of_sorted (rows : list R) :
  StronglySorted (cmp_lt cmp) (map key rows) ->
  groupby cmp key rows = map (fun r => (key r, [r])) rows.
Proof.
  intros Hs. unfold groupby. rewrite (group_keys_of_sorted rows Hs), map_map.
  apply map_ext_in. intros r Hr. f_equal.
  apply get_group_single; [ | exact Hr ].
  apply (sorted_keys_nodup cmp). exact Hs.
Qed.

(** Two strictly ascending lists with the same elements are equal. *)
Lemma sorted_keys_ext (l l' : list K) :
  StronglySorted (cmp_lt cmp) l -> StronglySorted (cmp_lt cmp) l' ->
  (forall k, In k l <-> In k l') -> l = l'.
Proof.
  intros Hs. revert l'. induction Hs as [ | a l Hs IH Ha ]; intros l' Hs' Hiff.
  - destruct l' as [ | a' l' ]; [ reflexivity | ].
    destruct (proj2 (Hiff a') (or_introl eq_refl)).
  - destruct Hs' as [ | a' l' Hs' Ha' ].
    + destruct (proj1 (Hiff a) (or_introl eq_refl)).
    + rewrite Forall_forall in Ha, Ha'.
      assert (E : a = a').
      { destruct (proj1 (Hiff a) (or_introl eq_refl)) as [E | Hin]; [ auto | ].
        destruct (proj2 (Hiff a') (or_introl eq_refl)) as [E | Hin']; [ auto | ].
        elim (cmp_lt_irrefl cmp a).
        exact (cmp_trans _ _ _ (Ha a' Hin') (Ha' a Hin)). }
      subst a'. f_equal. apply IH; [ exact Hs' | ].
      intros k. split; intros Hk.
      * destruct (proj1 (Hiff k) (or_intror Hk)) as [E | Hin]; [ | exact Hin ].
        subst k. elim (cmp_lt_irrefl cmp a). exact (Ha a Hk).
      * destruct (proj2 (Hiff k) (or_intror Hk)) as [E | Hin]; [ | exact Hin ].
        subst k. elim (cmp_lt_irrefl cmp a). exact (Ha' a Hk).
Qed.

Lemma group_keys_perm (rows rows' : list R) :
  Permutation rows rows' ->
  group_keys cmp key rows = group_keys cmp key rows'.
Proof.
  intros Hp. apply sorted_keys_ext; try apply (group_keys_sorted cmp).
  intros k. rewrite !(group_keys_In cmp). split; intros Hk.
  - eapply Permutation_in; [ apply Permutation_map; exact Hp | exact Hk ].
  - eapply Permutation_in;
      [ apply Permutation_map; apply Permutation_sym; exact Hp | exact Hk ].
Qed.

Lemma filter_perm (p : R -> bool) (rows rows' : list R) :
  Permutation rows rows' -> Permutation (filter p rows) (filter p rows').
Proof.
  induction 1 as [ | x l l' _ IH | x y l | l l' l'' _ IH1 _ IH2 ]; simpl.
  - constructor.
  - destruct (p x); [ constructor | ]; exact IH.
  - destruct (p x), (p y); try apply Permutation_refl.
    apply perm_swap.
  - eapply Permutation_trans; eassumption.
Qed.
End CanonicalKeys.

Section CanonicalForm.
Context {A : Type} `{ExactAdd A}.

Lemma col_sum_perm (l l' : list A) :
  Permutation l l' -> col_sum l = col_sum l'.
Proof.
  induction 1 as [ | x l l' _ IH | x y l | l l' l'' _ IH1 _ IH2 ].
  - reflexivity.
  - rewrite !col_sum_cons, IH. reflexivity.
  - rewrite !col_sum_cons, !add_assoc, (add_comm y x). reflexivity.
  - congruence.
Qed.

Lemma col_sum_single (x : A) : col_sum [x] = x.
Proof. unfold col_sum. simpl. apply add_zero_l. Qed.

Lemma aggregate_of_sorted (df : list (Row A)) :
  StronglySorted (cmp_lt pair_compare) (map row_key df) ->
  aggregate_by_month df = df.
Proof.
  intros Hs. unfold aggregate_by_month.
  rewrite (groupby_of_sorted pair_compare row_key df Hs), map_map.
  cbn [fst snd map]. erewrite map_ext; [ apply map_id | ].
  intros [m c a]. cbn [row_key Month Category Amount fst snd].
  rewrite col_sum_single. reflexivity.
Qed.
End CanonicalForm.

(** X1.  The aggregated frame is in ascending order of month and, within
    a month, of category label, each row strictly after the one before;
    it never has more rows than the input. *)
Theorem aggregate_rows_ascending {A : Type} `{Dtype A} (df : list (Row A)) :
  StronglySorted
    (fun a b => Month a < Month b
                \/ (Month a = Month b
                    /\ label_compare (Category a) (Category b) = Lt))
    (aggregate_by_month df)
  /\ (List.length (aggregate_by_month df) <= List.length df)%nat.
Proof.
  split.
  - assert (Hs := proj1 (StronglySorted_map (cmp_lt pair_compare) row_key _)
                        (aggregate_keys_sorted df)).
    eapply StronglySorted_weaken; [ | exact Hs ].
    intros a b Hab. apply pair_compare_lt in Hab. exact Hab.
  - rewrite <- (length_map row_key), aggregate_keys.
    apply (group_keys_length pair_compare).
Qed.

(** X2.  With exact addition the aggregated frame does not depend on the
    order of the ledger's rows. *)
Theorem aggregate_order_independent {A : Type} `{ExactAdd A}
    (df df' : list (Row A)) :
  Permutation df df' ->
  aggregate_by_month df = aggregate_by_month df'.
Proof.
  intros Hp. unfold aggregate_by_month, groupby.
  rewrite (group_keys_perm pair_compare row_key df df' Hp), !map_map.
  apply map_ext. intros k. cbn [fst snd]. f_equal.
  apply col_sum_perm. apply Permutation_map.
  apply filter_perm. exact Hp.
Qed.

Lemma aggregate_order_independent_witness :
  aggregate_by_month (rev Sample.rent_ledger)
  = aggregate_by_month Sample.rent_ledger.
Proof.
  apply aggregate_order_independent.
  apply Permutation_sym, Permutation_rev.
Defined.

(** X3.  With exact addition, aggregating twice is aggregating once; and
    the frames the aggregation leaves unchanged are exactly the frames
    whose (month, category) keys are strictly ascending. *)
Theorem aggregate_idempotent {A : Type} `{ExactAdd A} (df : list (Row A)) :
  aggregate_by_month (aggregate_by_month df) = aggregate_by_month df
  /\ (aggregate_by_month df = df <->
      StronglySorted (fun a b => pair_compare a b = Lt) (map row_key df)).
Proof.
  split.
  - apply aggregate_of_sorted. apply aggregate_keys_sorted.
  - split.
    + intros E. rewrite <- E. apply aggregate_keys_sorted.
    + apply aggregate_of_sorted.
Qed.

Lemma aggregate_idempotent_witness :
  aggregate_by_month (aggregate_by_month Sample.rent_ledger)
  = aggregate_by_month Sample.rent_ledger.
Proof.
  exact (proj1 (aggregate_idempotent Sample.rent_ledger)).
Defined.

(* ------------------------------------------------------------------ *)
(** ** Buckets are calendar months                                     *)
(* ------------------------------------------------------------------ *)

Lemma filter_map_comm {T U : Type} (f : T -> U) (p : U -> bool) (l : list T) :
  filter p (map f l) = map f (filter (fun x => p (f x)) l).
Proof.
  induction l as [ | x l IH ]; simpl; [ reflexivity | ].
  destruct (p (f x)); simpl; congruence.
Qed.

Lemma to_month_same (d d' : date) :
  1 <= month d <= 12 -> 1 <= month d' <= 12 ->
  (to_month d = to_month d' <-> year d = year d' /\ month d = month d').
Proof. unfold to_month. lia. Qed.

(** X4.  The ledger is bucketed by calendar month and category, the day
    of the month playing no part: for every record of the ledger that has
    a date and a category, the aggregated frame has a row for the
    record's month and category, whose amount is the sum of the amounts
    of the records of the same year, month and category.  Records with a
    blank date or category are counted in no row. *)
Theorem ledger_bucketed_by_calendar_month {A : Type} `{Dtype A}
    (read_csv : string -> result (list (LedgerRecord A))) (p : string)
    (csv : list (LedgerRecord A)) (x0 : LedgerRecord A) (d0 : date)
    (c0 : string) :
  read_csv p = Ok csv ->
  (forall x d, In x csv -> Date x = Some d -> 1 <= month d <= 12) ->
  In x0 csv -> Date x0 = Some d0 -> l_Category x0 = Some c0 ->
  exists df r,
    load_ledger read_csv p = Ok df
    /\ In r (aggregate_ledger df)
    /\ Month r = to_month d0
    /\ Category r = c0
    /\ Amount r
       = col_sum
           (map l_Amount
              (filter (fun x => match Date x, l_Category x with
                                | Some d, Some c =>
                                    (year d =? year d0) && (month d =? month d0)
                                    && String.eqb c c0
                                | _, _ => false
                                end) csv)).
Proof.
  intros Hread Hvalid Hin Hd0 Hc0.
  set (row := fun r : LedgerRecord A =>
                mkLedgerRow (option_map to_month (Date r)) (l_Category r) (l_Amount r)).
  assert (Hload : load_ledger read_csv p = Ok (map row csv)).
  { unfold load_ledger. rewrite Hread. cbn [bind].
    destruct csv; [ destruct Hin | reflexivity ]. }
  assert (Hk : In (mkRow (to_month d0) c0 (l_Amount x0)) (dropna_keys (map row csv))).
  { apply dropna_keys_In. exists (row x0). cbn [row d_Month d_Category d_Amount Month Category Amount].
    rewrite Hd0, Hc0. repeat split. apply in_map. exact Hin. }
  assert (Hkey : In (to_month d0, c0)
                   (map row_key (aggregate_ledger (map row csv)))).
  { unfold aggregate_ledger. rewrite aggregate_keys.
    apply (group_keys_In pair_compare). apply (in_map row_key) in Hk. exact Hk. }
  apply in_map_iff in Hkey. destruct Hkey as (r & Hr & Hrin).
  injection Hr as Hm Hc.
  exists (map row csv), r. repeat split; try assumption.
  unfold aggregate_ledger in Hrin. apply aggregate_In in Hrin.
  destruct Hrin as (_ & ->). f_equal.
  assert (Hgen : forall l : list (LedgerRecord A),
            (forall x d, In x l -> Date x = Some d -> 1 <= month d <= 12) ->
            map Amount (filter (fun x => same_bucket x r) (dropna_keys (map row l)))
            = map l_Amount
                (filter (fun x => match Date x, l_Category x with
                                  | Some d, Some c =>
                                      (year d =? year d0) && (month d =? month d0)
                                      && String.eqb c c0
                                  | _, _ => false
                                  end) l)).
  { induction l as [ | x l IH ]; intros Hv; [ reflexivity | ].
    specialize (IH (fun y d Hy => Hv y d (or_intror Hy))).
    cbn [map dropna_keys row d_Month d_Category d_Amount filter].
    destruct (Date x) as [d | ] eqn:Ed; cbn [option_map]; [ | exact IH ].
    destruct (l_Category x) as [c | ] eqn:Ec; [ | exact IH ].
    cbn [filter]. unfold same_bucket at 1. cbn [Month Category].
    rewrite Hm, Hc.
    assert (Hd : 1 <= month d <= 12) by (apply (Hv x d); [ left; reflexivity | exact Ed ]).
    assert (Hd0' : 1 <= month d0 <= 12) by (apply (Hvalid x0 d0 Hin Hd0)).
    replace (to_month d =? to_month d0)
      with ((year d =? year d0) && (month d =? month d0)).
    - destruct ((year d =? year d0) && (month d =? month d0) && String.eqb c c0);
        cbn [map Amount]; congruence.
    - destruct (Z.eqb_spec (to_month d) (to_month d0)) as [E | N].
      + apply to_month_same in E; try assumption.
        destruct E as (-> & ->). rewrite !Z.eqb_refl. reflexivity.
      + destruct (Z.eqb_spec (year d) (year d0)) as [Ey | ]; [ | reflexivity ].
        destruct (Z.eqb_spec (month d) (month d0)) as [Em | ]; [ | reflexivity ].
        elim N. unfold to_month. lia. }
  apply Hgen. exact Hvalid.
Qed.

Lemma ledger_bucketed_by_calendar_month_witness :
  exists df r,
    load_ledger Sample.disk "ledger.csv" = Ok df
    /\ In r (aggregate_ledger df)
    /\ Month r = Sample.jan24 /\ Category r = "Rent"%string
    /\ Amount r = -1000.
Proof.
  destruct (ledger_bucketed_by_calendar_month Sample.disk "ledger.csv"
              Sample.rent_csv
              (mkLedgerRecord (Some (mkDate 2024 1 3)) (Some "Rent"%string) (-600))
              (mkDate 2024 1 3) "Rent"%string)
    as (df & r & Hl & Hin & Hm & Hc & Ha).
  - reflexivity.
  - intros x d Hx Hd. simpl in Hx.
    destruct Hx as [<- | [<- | [<- | [<- | []]]]]; injection Hd as <-; simpl; lia.
  - simpl. auto.
  - reflexivity.
  - reflexivity.
  - exists df, r. repeat split; assumption.
Defined.

(* ------------------------------------------------------------------ *)
(** ** Edge behaviour of forecast_series                               *)
(* ------------------------------------------------------------------ *)

(** X5.  On a series without observations [forecast_series] raises
    IndexError, with or without an engine and whatever [periods] is: the
    length test sends the empty series to the fallback, which reads its
    last value.  On the fallback path this is the only failure: a series
    with an observation always gets a forecast. *)
Theorem forecast_series_empty_raises {A : Type} `{Dtype A}
    (SARIMAX : option (Engine A)) (periods : Z) :
  forecast_series SARIMAX [] periods = Raise IndexError
  /\ forall series,
       SARIMAX = None \/ Z.of_nat (List.length series) < 6 ->
       (is_raise (forecast_series SARIMAX series periods) <-> series = []).
Proof.
  split; [ destruct SARIMAX; reflexivity | ].
  intros series Hfb.
  rewrite (forecast_series_fallback SARIMAX series periods Hfb).
  unfold naive_forecast. split.
  - intros (e & He). destruct series as [ | mv series ]; [ reflexivity | ].
    destruct (iloc_last_nonempty (mv :: series)) as (last & Hl); [ discriminate | ].
    rewrite Hl in He. discriminate He.
  - intros ->. exists IndexError. reflexivity.
Qed.

(** X6.  On the fallback path a horizon of zero or less gives a forecast
    without values (and no exception), for every non-empty series. *)
Theorem forecast_series_no_horizon {A : Type} `{Dtype A}
    (SARIMAX : option (Engine A)) (series : Series A) (periods : Z) :
  series <> [] ->
  periods <= 0 ->
  SARIMAX = None \/ Z.of_nat (List.length series) < 6 ->
  forecast_series SARIMAX series periods = Ok [].
Proof.
  intros Hne Hp Hfb.
  rewrite (forecast_series_fallback SARIMAX series periods Hfb).
  unfold naive_forecast.
  destruct (iloc_last_nonempty series Hne) as (last & ->). simpl.
  replace (Z.to_nat periods) with 0%nat by lia. reflexivity.
Qed.

Lemma forecast_series_no_horizon_witness :
  forecast_series (Some Sample.failing_engine) [(Sample.jan24, 5)] (-2) = Ok [].
Proof.
  apply forecast_series_no_horizon.
  - discriminate.
  - lia.
  - right. simpl. lia.
Defined.

(* ------------------------------------------------------------------ *)
(** ** When build_forecast returns                                     *)
(* ------------------------------------------------------------------ *)

Section ReturnFacts.
Context {A : Type} `{Dtype A}.

Lemma build_series_duplicates (group : list (Row A)) :
  ~ NoDup (map Month group) -> build_series group = Raise ValueError.
Proof.
  intros Hdup. unfold build_series, asfreq. rewrite map_fst_set_index.
  destruct (map Month group) as [ | first rest ] eqn:E.
  - elim Hdup. constructor.
  - destruct (is_unique (first :: rest)) eqn:U; [ | reflexivity ].
    elim Hdup. apply is_unique_nodup. exact U.
Qed.

(** If the months of every category are distinct, so are the keys. *)
Lemma keys_nodup_of_categories (df : list (Row A)) :
  (forall c, In c (map Category df) ->
     NoDup (map Month (get_group label_compare Category c df))) ->
  NoDup (map row_key df).
Proof.
  induction df as [ | r df IH ]; intros Hall; [ constructor | ].
  simpl. constructor.
  - intros Hin. apply in_map_iff in Hin. destruct Hin as (x & Hk & Hx).
    injection Hk as Hm Hc.
    specialize (Hall (Category r) (or_introl eq_refl)).
    unfold get_group in Hall. simpl in Hall.
    rewrite (cmp_eqb_refl label_compare) in Hall. simpl in Hall. inv Hall.
    apply H2. rewrite <- Hm. apply in_map. apply filter_In. split; [ exact Hx | ].
    apply (cmp_eqb_eq label_compare). exact Hc.
  - apply IH. intros c Hc.
    specialize (Hall c (or_intror Hc)).
    unfold get_group in *. simpl in Hall.
    destruct (cmp_eqb label_compare (Category r) c); [ | exact Hall ].
    simpl in Hall. inv Hall. assumption.
Qed.

Lemma for_each_raise_first {T U : Type} (body : T -> result U)
    (items : list T) (e : exception) :
  (forall x, In x items -> (exists y, body x = Ok y) \/ body x = Raise e) ->
  (exists x, In x items /\ body x = Raise e) ->
  for_each body items = Raise e.
Proof.
  induction items as [ | x items IH ]; intros Hall (x0 & Hin & Hx0);
    [ destruct Hin | ].
  simpl. destruct (Hall x (or_introl eq_refl)) as [(y & Hy) | Hr].
  - rewrite Hy. simpl. destruct Hin as [-> | Hin]; [ congruence | ].
    rewrite IH; [ reflexivity | | exists x0; auto ].
    intros z Hz. apply Hall. right. exact Hz.
  - rewrite Hr. reflexivity.
Qed.
End ReturnFacts.

(** X7.  Without an engine [build_forecast] returns a frame exactly when
    its input has a row and no two rows with the same month and category;
    on every other input it raises ValueError (no frame to concatenate, or
    a category whose months repeat cannot be put on the monthly grid). *)
Theorem build_forecast_without_engine {A : Type} `{Dtype A}
    (df : list (Row A)) (periods : Z) :
  0 <= periods ->
  (df <> [] /\ NoDup (map row_key df) ->
   exists out, build_forecast None df periods = Ok out)
  /\ (df = [] \/ ~ NoDup (map row_key df) ->
      build_forecast None df periods = Raise ValueError).
Proof.
  intros _. split.
  - intros (Hne & Hnd). apply build_forecast_returns; try assumption.
    intros engine E. discriminate E.
  - intros [-> | Hdup]; [ reflexivity | ].
    unfold build_forecast.
    assert (Hcases : forall g, In g (groupby label_compare Category df) ->
              (exists rows, category_forecast None periods g = Ok rows)
              \/ category_forecast None periods g = Raise ValueError).
    { intros [c group] Hg. apply (groupby_In label_compare) in Hg.
      destruct Hg as (Hc & ->).
      set (group := get_group label_compare Category c df).
      destruct (is_unique (map Month group)) eqn:U.
      - left. apply category_forecast_total.
        + apply (get_group_nonempty label_compare). exact Hc.
        + apply is_unique_nodup. exact U.
        + intros engine E. discriminate E.
      - right. unfold category_forecast. cbn [fst snd].
        rewrite build_series_duplicates; [ reflexivity | ].
        intros Hnd. apply is_unique_nodup in Hnd. congruence. }
    rewrite (for_each_raise_first _ _ ValueError Hcases); [ reflexivity | ].
    destruct (Forall_Exists_dec
                (fun g : string * list (Row A) =>
                   is_unique (map Month (snd g)) = true)
                (fun g => bool_dec _ true)
                (groupby label_compare Category df)) as [Hall | Hex].
    + elim Hdup. apply keys_nodup_of_categories. intros c Hc.
      rewrite Forall_forall in Hall. apply is_unique_nodup.
      apply (Hall (c, get_group label_compare Category c df)).
      apply (groupby_In label_compare). auto.
    + apply Exists_exists in Hex. destruct Hex as ([c group] & Hg & Hu).
      exists (c, group). split; [ exact Hg | ].
      unfold category_forecast. cbn [fst snd] in *.
      rewrite build_series_duplicates; [ reflexivity | ].
      intros Hnd. apply is_unique_nodup in Hnd. congruence.
Qed.

Lemma build_forecast_without_engine_witness :
  build_forecast None
    [ mkRow Sample.jan24 "Rent" (-600); mkRow Sample.jan24 "Rent" (-400) ] 6
  = Raise ValueError.
Proof.
  apply (proj2 (build_forecast_without_engine
                  [ mkRow Sample.jan24 "Rent" (-600);
                    mkRow Sample.jan24 "Rent" (-400) ] 6 ltac:(lia))).
  right. intros Hnd. inversion Hnd as [ | k ks Hk _ ]. apply Hk. left. reflexivity.
Defined.

(* ------------------------------------------------------------------ *)
(** ** What the forecast rows of a category hold                       *)
(* ------------------------------------------------------------------ *)

Lemma last_item_In {T : Type} (l : list T) (x : T) :
  last_item l = Some x -> In x l.
Proof.
  induction l as [ | y [ | z l ] IH ]; simpl; intros E.
  - discriminate.
  - inv E. auto.
  - right. apply IH. exact E.
Qed.

Lemma series_value_unique {A : Type} (s : Series A) (m : Z) (v v' : A) :
  NoDup (map fst s) -> In (m, v) s -> In (m, v') s -> v = v'.
Proof.
  induction s as [ | [m0 v0] s IH ]; simpl; intros Hnd H1 H2; [ destruct H1 | ].
  inv Hnd. destruct H1 as [E1 | H1], H2 as [E2 | H2].
  - congruence.
  - inv E1. elim H3. change m with (fst (m, v')). apply in_map. exact H2.
  - inv E2. elim H3. change m with (fst (m, v)). apply in_map. exact H1.
  - apply IH; assumption.
Qed.

(** X8.  The naive forecast of a category is its most recent monthly
    total: when the category is on the fallback path, every forecast row
    of the category carries the amount of the category's row with the
    latest month. *)
Theorem fallback_forecast_latest_total {A : Type} `{Dtype A}
    (SARIMAX : option (Engine A)) (df : list (Row A)) (periods : Z)
    (out : list (ForecastRow A)) (c : string) (ts : Series A) :
  build_forecast SARIMAX df periods = Ok out ->
  In c (map Category df) ->
  build_series (get_group label_compare Category c df) = Ok ts ->
  SARIMAX = None \/ Z.of_nat (List.length ts) < 6 ->
  exists latest,
    In latest df /\ Category latest = c
    /\ (forall r, In r df -> Category r = c -> Month r <= Month latest)
    /\ forall fr, In fr (category_rows c out) -> Forecast fr = Amount latest.
Proof.
  intros Hout Hc Hts Hfb.
  set (group := get_group label_compare Category c df) in *.
  assert (Hg : In (c, group) (groupby label_compare Category df))
    by (apply (groupby_In label_compare); auto).
  assert (Hne : group <> []) by (apply (get_group_nonempty label_compare); exact Hc).
  assert (Hnd := build_series_inv group ts Hts Hne).
  destruct (build_series_regular group Hne Hnd)
    as (ts' & lo & hi & Hts' & _ & _ & _ & Hidx & _ & Hval).
  rewrite Hts in Hts'. inv Hts'.
  assert (Hcf := build_forecast_category SARIMAX df periods out c group Hout Hg).
  destruct (category_forecast_ok _ _ _ _ _ Hcf)
    as (ts & last & Hts2 & Hlast & Hfc & _ & _).
  rewrite Hts in Hts2. inv Hts2.
  destruct (series_last_month group ts last Hne Hts Hlast) as (Hin & Hmax & _).
  apply in_map_iff in Hin. destruct Hin as (latest & Hm & Hlg).
  assert (Hld := proj1 (get_group_In label_compare Category c latest df) Hlg).
  exists latest. split; [ apply Hld | split; [ apply Hld | split ] ].
  - intros r Hr Hrc. rewrite Hm. apply Hmax.
    apply (get_group_In label_compare). auto.
  - intros fr Hfr.
    rewrite (forecast_series_fallback SARIMAX ts periods Hfb) in Hfc.
    unfold naive_forecast, iloc_last in Hfc. unfold index_last in Hlast.
    destruct (last_item ts) as [[m v] | ] eqn:El; [ | discriminate ].
    simpl in Hfc, Hlast. inv Hlast. inv Hfc.
    assert (Hv : In (Forecast fr) (map Forecast (category_rows c out)))
      by (apply in_map; exact Hfr).
    rewrite <- H1 in Hv. apply repeat_spec in Hv. rewrite Hv.
    apply (series_value_unique ts (Month latest)).
    + rewrite Hidx. apply months_from_nodup.
    + apply last_item_In. exact El.
    + apply Hval. exact Hlg.
Qed.

Lemma fallback_forecast_latest_total_witness :
  exists latest,
    In latest (aggregate_by_month Sample.rent_ledger)
    /\ Category latest = "Rent"%string
    /\ forall fr, In fr (category_rows "Rent"%string
                          (Forecast_sheet Sample.book)) ->
         Forecast fr = Amount latest.
Proof.
  destruct (fallback_forecast_latest_total None
              (aggregate_by_month Sample.rent_ledger) 6
              (Forecast_sheet Sample.book) "Rent"%string
              [(Sample.jan24, -1000); (Sample.jan24 + 1, 0);
               (Sample.jan24 + 2, -1000)])
    as (latest & Hin & Hc & _ & Hv).
  - reflexivity.
  - vm_compute. auto.
  - reflexivity.
  - left. reflexivity.
  - exists latest. auto.
Defined.

(** X9.  The forecast rows of a category depend on that category's rows
    only: two input frames that hold the same rows for a category give,
    when both runs return, the same forecast rows for it, whatever their
    other categories are and whichever path those take. *)
Theorem category_forecast_independent {A : Type} `{Dtype A}
    (SARIMAX : option (Engine A)) (df df' : list (Row A)) (periods : Z)
    (out out' : list (ForecastRow A)) (c : string) :
  build_forecast SARIMAX df periods = Ok out ->
  build_forecast SARIMAX df' periods = Ok out' ->
  In c (map Category df) ->
  get_group label_compare Category c df = get_group label_compare Category c df' ->
  category_rows c out = category_rows c out'.
Proof.
  intros Hout Hout' Hc Hsame.
  assert (Hc' : In c (map Category df')).
  { assert (Hne := get_group_nonempty label_compare Category c df Hc).
    rewrite Hsame in Hne.
    destruct (get_group label_compare Category c df') as [ | r g ] eqn:E;
      [ congruence | ].
    assert (Hr : In r (get_group label_compare Category c df'))
      by (rewrite E; left; reflexivity).
    apply (get_group_In label_compare) in Hr. destruct Hr as (Hr & <-).
    apply in_map. exact Hr. }
  assert (E1 := build_forecast_category SARIMAX df periods out c _ Hout
                  (proj2 (groupby_In label_compare Category c _ df)
                     (conj Hc eq_refl))).
  assert (E2 := build_forecast_category SARIMAX df' periods out' c _ Hout'
                  (proj2 (groupby_In label_compare Category c _ df')
                     (conj Hc' eq_refl))).
  rewrite Hsame in E1. congruence.
Qed.

Lemma category_forecast_independent_witness :
  category_rows "Rent"%string
    match build_forecast (Some Sample.flat_engine)
            (aggregate_by_month (Sample.rent_ledger ++ Sample.sales)) 6 with
    | Ok out => out
    | Raise _ => []
    end
  = category_rows "Rent"%string (Forecast_sheet Sample.book).
Proof.
  apply (category_forecast_independent (Some Sample.flat_engine)
           (aggregate_by_month (Sample.rent_ledger ++ Sample.sales))
           (aggregate_by_month Sample.rent_ledger) 6).
  - reflexivity.
  - reflexivity.
  - vm_compute. auto.
  - reflexivity.
Defined.

(** X10.  On the statistical path the engine is given the zero-filled
    monthly series of the category and its answer is what the category's
    forecast rows carry, value for value and in order; the answer has
    [periods] values. *)
Theorem engine_answer_passes_through {A : Type} `{Dtype A}
    (engine : Engine A) (df : list (Row A)) (periods : Z)
    (out : list (ForecastRow A)) (c : string) (ts : Series A) :
  build_forecast (Some engine) df periods = Ok out ->
  In c (map Category df) ->
  build_series (get_group label_compare Category c df) = Ok ts ->
  6 <= Z.of_nat (List.length ts) ->
  engine ts periods = Ok (map Forecast (category_rows c out))
  /\ List.length (category_rows c out) = Z.to_nat periods.
Proof.
  intros Hout Hc Hts Hlen.
  assert (Hg : In (c, get_group label_compare Category c df)
                  (groupby label_compare Category df))
    by (apply (groupby_In label_compare); auto).
  assert (Hcf := build_forecast_category _ _ _ _ _ _ Hout Hg).
  split.
  - destruct (category_forecast_ok _ _ _ _ _ Hcf) as (ts' & last & Hts' & _ & Hfc & _).
    rewrite Hts in Hts'. inv Hts'.
    rewrite forecast_series_engine in Hfc by exact Hlen. exact Hfc.
  - apply category_forecast_length in Hcf. apply Hcf.
Qed.

Lemma engine_answer_passes_through_witness :
  map Forecast
    (category_rows "Sales"%string
       match build_forecast (Some Sample.flat_engine)
               (aggregate_by_month Sample.sales) 2 with
       | Ok out => out
       | Raise _ => []
       end)
  = [103; 103].
Proof.
  pose proof (engine_answer_passes_through Sample.flat_engine
                (aggregate_by_month Sample.sales) 2
                [ mkForecastRow (Sample.jan24 + 8) "Sales" 103;
                  mkForecastRow (Sample.jan24 + 9) "Sales" 103 ]
                "Sales"%string
                (map (fun i => (Sample.jan24 + Z.of_nat i, 100 + Z.of_nat i))
                     (seq 0 8))) as Hx.
  destruct Hx as (_ & _).
  - reflexivity.
  - vm_compute. auto.
  - reflexivity.
  - simpl. lia.
  - reflexivity.
Defined.

(* ------------------------------------------------------------------ *)
(** ** Filling the gaps keeps the total                                *)
(* ------------------------------------------------------------------ *)

Section GapFill.
Context {A : Type} `{ExactAdd A}.

Lemma add_zero_r (x : A) : add x zero = x.
Proof. rewrite add_comm. apply add_zero_l. Qed.

Lemma col_sum_zeros {T : Type} (l : list T) :
  col_sum (map (fun _ => zero) l) = zero.
Proof.
  induction l as [ | x l IH ]; [ reflexivity | ].
  simpl. rewrite col_sum_cons, IH. apply add_zero_l.
Qed.

(** Writing [v] at one label of a grid where the value was [zero] adds
    [v] to the total. *)
Lemma col_sum_set (g : Z -> A) (m0 : Z) (v0 : A) (grid : list Z) :
  NoDup grid -> In m0 grid -> g m0 = zero ->
  col_sum (map (fun m => if Z.eqb m0 m then v0 else g m) grid)
  = add v0 (col_sum (map g grid)).
Proof.
  intros Hnd Hin Hz. induction Hnd as [ | x grid Hx Hnd IH ]; [ destruct Hin | ].
  simpl. rewrite !col_sum_cons.
  destruct (Z.eqb_spec m0 x) as [-> | N].
  - rewrite Hz, add_zero_l. f_equal. f_equal. apply map_ext_in.
    intros m Hm. destruct (Z.eqb_spec x m) as [-> | _]; [ contradiction | reflexivity ].
  - destruct Hin as [E | Hin]; [ congruence | ].
    rewrite (IH Hin), !add_assoc, (add_comm (g x) v0). reflexivity.
Qed.

Lemma col_sum_filled (s : Series A) (grid : list Z) :
  NoDup grid -> NoDup (map fst s) ->
  (forall m, In m (map fst s) -> In m grid) ->
  col_sum (map (filled s) grid) = col_sum (map snd s).
Proof.
  intros Hgrid. induction s as [ | [m0 v0] s IH ]; simpl; intros Hnd Hsub.
  - apply col_sum_zeros.
  - inv Hnd. rewrite col_sum_cons, <- IH by auto.
    rewrite <- (col_sum_set (filled s) m0 v0 grid Hgrid).
    + f_equal. apply map_ext. intros m. unfold filled. simpl.
      destruct (Z.eqb m0 m); reflexivity.
    + apply Hsub. left. reflexivity.
    + unfold filled. rewrite get_notin by assumption. reflexivity.
Qed.
End GapFill.

(** X11.  With exact addition, putting a category on the monthly grid
    keeps its total: the values of the built series add up to the amounts
    of the category's rows, the filled months adding 0. *)
Theorem series_total_conserved {A : Type} `{ExactAdd A}
    (group : list (Row A)) (ts : Series A) :
  build_series group = Ok ts ->
  col_sum (map snd ts) = col_sum (map Amount group).
Proof.
  intros Hts.
  destruct group as [ | r group ].
  - inv Hts. reflexivity.
  - set (rows := r :: group) in *.
    assert (Hne : rows <> []) by discriminate.
    assert (Hnd := build_series_inv rows ts Hts Hne).
    assert (Hshape : exists lo hi,
              ts = fillna (map (fun m => (m, get m (set_index rows)))
                               (date_range lo hi))
              /\ forall m, In m (map Month rows) -> lo <= m <= hi).
    { destruct (index_min_spec (Month r) (map Month group)) as (_ & Hlo).
      destruct (index_max_spec (Month r) (map Month group)) as (_ & Hhi).
      exists (index_min (Month r) (map Month group)),
             (index_max (Month r) (map Month group)).
      split; [ | intros m Hm; split; [ apply Hlo | apply Hhi ]; exact Hm ].
      revert Hts. unfold build_series, asfreq. rewrite map_fst_set_index.
      change (map Month rows) with (Month r :: map Month group). cbv iota.
      change (Month r :: map Month group) with (map Month rows).
      rewrite (proj2 (is_unique_nodup _) Hnd). cbn [bind].
      intros E. inv E. reflexivity. }
    destruct Hshape as (lo & hi & -> & Hrange).
    clearbody rows. unfold fillna. rewrite !map_map. cbn [fst snd].
    change (fun m : Z => match get m (set_index rows) with
                         | Some v => v
                         | None => zero
                         end)
      with (filled (set_index rows)).
    rewrite col_sum_filled.
    + unfold set_index. rewrite map_map. reflexivity.
    + apply months_from_nodup.
    + rewrite map_fst_set_index. exact Hnd.
    + rewrite map_fst_set_index. intros m Hm.
      apply date_range_In. apply Hrange. exact Hm.
Qed.

Lemma series_total_conserved_witness :
  col_sum (map snd [(Sample.jan24, -1000); (Sample.jan24 + 1, 0);
                    (Sample.jan24 + 2, -1000)])
  = col_sum (map Amount
               (get_group label_compare Category "Rent"%string
                  (aggregate_by_month Sample.rent_ledger))).
Proof.
  apply series_total_conserved. reflexivity.
Defined.

(* ------------------------------------------------------------------ *)
(** ** Aggregation followed by the forecast                            *)
(* ------------------------------------------------------------------ *)

Lemma dropna_keys_nil {A : Type} (df : list (LedgerRow A)) :
  dropna_keys df = [] <-> forall x, In x df -> has_keys x = false.
Proof.
  induction df as [ | x df IH ]; simpl.
  - split; [ intros _ y [] | reflexivity ].
  - assert (Hstep : has_keys x = false ->
              ((forall y, In y df -> has_keys y = false) <->
               (forall y, x = y \/ In y df -> has_keys y = false))).
    { intros Hx. split.
      - intros Hall y [E | Hy]; [ subst y; exact Hx | apply Hall; exact Hy ].
      - intros Hall y Hy. apply Hall. right. exact Hy. }
    destruct (d_Month x) as [m | ] eqn:Em; [ destruct (d_Category x) as [c | ] eqn:Ec | ].
    + split; [ discriminate | ].
      intros Hall. specialize (Hall x (or_introl eq_refl)).
      unfold has_keys in Hall. rewrite Em, Ec in Hall. discriminate Hall.
    + rewrite IH. apply Hstep. unfold has_keys. rewrite Em, Ec. reflexivity.
    + rewrite IH. apply Hstep. unfold has_keys. rewrite Em. reflexivity.
Qed.

(** X12.  Without an engine, forecasting the aggregation of a ledger frame
    succeeds exactly when some row of the frame has both its month and its
    category, whatever else the frame holds (repeated buckets, gaps, any
    order, rows with a blank key): a forecast frame is then returned, with
    [periods] rows for the category of every input row that has both
    keys.  When no row has both keys, ValueError is raised. *)
Theorem aggregate_then_forecast_returns {A : Type} `{Dtype A}
    (df : list (LedgerRow A)) (periods : Z) :
  0 <= periods ->
  ((exists x, In x df /\ has_keys x = true) ->
   exists out,
     build_forecast None (aggregate_ledger df) periods = Ok out
     /\ forall x m c, In x df -> d_Month x = Some m -> d_Category x = Some c ->
          Z.of_nat (List.length (category_rows c out)) = periods)
  /\ ((forall x, In x df -> has_keys x = false) ->
      build_forecast None (aggregate_ledger df) periods = Raise ValueError).
Proof.
  intros Hp. split.
  - intros (x0 & Hx0 & Hk0).
    set (monthly := aggregate_ledger df).
    assert (Hm : monthly <> []).
    { unfold monthly, aggregate_ledger. intros E.
      apply (proj1 (aggregate_nil_iff _)) in E.
      pose proof (proj1 (dropna_keys_nil df) E x0 Hx0) as Hk.
      rewrite Hk in Hk0. discriminate Hk0. }
    destruct (build_forecast_returns None monthly periods Hm) as (out & Hout).
    + apply aggregate_keys_nodup.
    + intros engine E. discriminate E.
    + exists out. split; [ exact Hout | ].
      intros x m c Hx Em Ec.
      assert (Hcat : In c (map Category monthly)).
      { assert (Hin : In (mkRow m c (d_Amount x)) (dropna_keys df)).
        { apply dropna_keys_In. exists x. auto. }
        assert (Hk : In (m, c) (map row_key monthly)).
        { unfold monthly, aggregate_ledger. rewrite aggregate_keys.
          apply (group_keys_In pair_compare).
          apply (in_map row_key) in Hin. exact Hin. }
        apply in_map_iff in Hk. destruct Hk as (r & Hr & Hrin).
        injection Hr as _ Hrc. rewrite <- Hrc. apply in_map. exact Hrin. }
      assert (Hg : In (c, get_group label_compare Category c monthly)
                      (groupby label_compare Category monthly))
        by (apply (groupby_In label_compare); auto).
      assert (Hcf := build_forecast_category _ _ _ _ _ _ Hout Hg).
      apply category_forecast_length in Hcf. destruct Hcf as (Hlen & _).
      rewrite Hlen. lia.
  - intros Hall. unfold aggregate_ledger.
    rewrite (proj2 (dropna_keys_nil df) Hall). reflexivity.
Qed.

Lemma aggregate_then_forecast_returns_witness :
  exists out,
    build_forecast None (aggregate_ledger Sample.blank_label_frame) 3 = Ok out
    /\ Z.of_nat (List.length (category_rows "Rent"%string out)) = 3.
Proof.
  destruct (proj1 (aggregate_then_forecast_returns Sample.blank_label_frame 3
                     ltac:(lia)))
    as (out & Hout & Hrows).
  - exists (mkLedgerRow (Some Sample.jan24) (Some "Rent"%string) (-1000)).
    split; [ simpl; auto | reflexivity ].
  - exists out. split; [ exact Hout | ].
    apply (Hrows (mkLedgerRow (Some Sample.jan24) (Some "Rent"%string) (-1000))
             Sample.jan24); [ simpl; auto | reflexivity | reflexivity ].
Defined.

(* ------------------------------------------------------------------ *)
(** ** Order and key of the forecast frame                             *)
(* ------------------------------------------------------------------ *)

Lemma StronglySorted_app {T : Type} (R : T -> T -> Prop) (l l' : list T) :
  StronglySorted R l -> StronglySorted R l' ->
  (forall a b, In a l -> In b l' -> R a b) ->
  StronglySorted R (l ++ l').
Proof.
  induction 1 as [ | x l _ IH Hall ]; intros Hs' Hcross; simpl; [ exact Hs' | ].
  constructor.
  - apply IH; [ exact Hs' | ]. intros a b Ha Hb. apply Hcross; [ right | ]; assumption.
  - apply Forall_app. split; [ exact Hall | ].
    apply Forall_forall. intros b Hb. apply Hcross; [ left; reflexivity | exact Hb ].
Qed.

Lemma StronglySorted_within {T : Type} (R R' : T -> T -> Prop) (P : T -> Prop)
    (l : list T) :
  (forall a b, P a -> P b -> R a b -> R' a b) ->
  Forall P l -> StronglySorted R l -> StronglySorted R' l.
Proof.
  intros Himp HP. induction 1 as [ | x l _ IH Hall ]; [ constructor | ].
  inv HP. constructor; [ apply IH; assumption | ].
  rewrite Forall_forall in *. intros b Hb. apply Himp; auto.
Qed.

Section ForecastOrder.
Context {A : Type} `{Dtype A}.

Lemma category_forecast_sorted (SARIMAX : option (Engine A)) (periods : Z)
    (g : string * list (Row A)) (rows : list (ForecastRow A)) :
  category_forecast SARIMAX periods g = Ok rows ->
  StronglySorted forecast_before rows.
Proof.
  intros Hr. destruct (category_forecast_length _ _ _ _ Hr) as (_ & Hcat).
  destruct g as [c group]. apply category_forecast_ok in Hr.
  destruct Hr as (ts & last & _ & _ & _ & Hm & _).
  assert (Hs : StronglySorted (fun a b => f_Month a < f_Month b) rows).
  { apply (StronglySorted_map Z.lt f_Month). rewrite Hm. apply months_from_sorted. }
  eapply StronglySorted_within; [ | exact Hcat | exact Hs ].
  cbn [fst]. intros a b Ha Hb Hab. right. split; [ congruence | exact Hab ].
Qed.

Lemma blocks_sorted (SARIMAX : option (Engine A)) (periods : Z)
    (groups : list (string * list (Row A)))
    (blocks : list (list (ForecastRow A))) :
  Forall2 (fun g b => category_forecast SARIMAX periods g = Ok b) groups blocks ->
  StronglySorted (cmp_lt label_compare) (map fst groups) ->
  StronglySorted forecast_before (concat blocks)
  /\ Forall (fun r => In (f_Category r) (map fst groups)) (concat blocks).
Proof.
  induction 1 as [ | g b groups blocks Hgb F IH ]; simpl; intros Hs.
  - split; constructor.
  - inv Hs. destruct (IH H2) as (Hrest & Hcats).
    destruct (category_forecast_length _ _ _ _ Hgb) as (_ & Hcat).
    rewrite Forall_forall in Hcat, Hcats, H3. split.
    + apply StronglySorted_app.
      * apply (category_forecast_sorted _ _ _ _ Hgb).
      * exact Hrest.
      * intros x y Hx Hy. left. rewrite (Hcat x Hx). apply H3. apply Hcats. exact Hy.
    + apply Forall_app. split; apply Forall_forall; intros r Hr.
      * left. symmetry. apply Hcat. exact Hr.
      * right. apply Hcats. exact Hr.
Qed.
End ForecastOrder.

(** X13.  The forecast frame is ordered by category label and, within a
    category, by month, each row strictly after the one before; so no two
    of its rows have the same category and month. *)
Theorem forecast_rows_ascending {A : Type} `{Dtype A}
    (SARIMAX : option (Engine A)) (df : list (Row A)) (periods : Z)
    (out : list (ForecastRow A)) :
  build_forecast SARIMAX df periods = Ok out ->
  StronglySorted forecast_before out
  /\ NoDup (map (fun r => (f_Category r, f_Month r)) out).
Proof.
  intros Hout. apply build_forecast_ok in Hout.
  destruct Hout as (_ & blocks & F & ->).
  assert (Hs : StronglySorted forecast_before (concat blocks)).
  { apply (blocks_sorted SARIMAX periods _ _ F).
    rewrite (map_fst_groupby label_compare).
    apply (group_keys_sorted label_compare). }
  split; [ exact Hs | ].
  induction Hs as [ | r l _ IH Hall ]; simpl; constructor; [ | exact IH ].
  intros Hin. apply in_map_iff in Hin. destruct Hin as (x & Hk & Hx).
  injection Hk as Hc Hm. rewrite Forall_forall in Hall.
  destruct (Hall x Hx) as [Hlt | (_ & Hlt)].
  - rewrite Hc, (cmp_refl label_compare) in Hlt. discriminate Hlt.
  - lia.
Qed.

Lemma forecast_rows_ascending_witness :
  NoDup (map (fun r => (f_Category r, f_Month r)) (Forecast_sheet Sample.book)).
Proof.
  destruct (forecast_rows_ascending None
              (aggregate_by_month Sample.rent_ledger) 6
              (Forecast_sheet Sample.book)) as (_ & Hnd);
    [ reflexivity | exact Hnd ].
Defined.

(* ------------------------------------------------------------------ *)
(** ** The six-observation test counts filled months                   *)
(* ------------------------------------------------------------------ *)

(** X14.  The length tested against 6 is that of the zero-filled series:
    a category whose first and last observed months are five months or
    more apart goes to the engine, however few rows it has, and its
    forecast rows carry the engine's answer. *)
Theorem engine_consulted_by_span {A : Type} `{Dtype A}
    (engine : Engine A) (df : list (Row A)) (periods : Z)
    (out : list (ForecastRow A)) (a b : Row A) :
  build_forecast (Some engine) df periods = Ok out ->
  In a df -> In b df -> Category a = Category b ->
  Month a + 5 <= Month b ->
  exists ts,
    build_series (get_group label_compare Category (Category a) df) = Ok ts
    /\ 6 <= Z.of_nat (List.length ts)
    /\ engine ts periods = Ok (map Forecast (category_rows (Category a) out)).
Proof.
  intros Hout Ha Hb Hab Hspan.
  set (c := Category a) in *.
  set (group := get_group label_compare Category c df).
  assert (Hc : In c (map Category df)) by (apply in_map; exact Ha).
  assert (Hg : In (c, group) (groupby label_compare Category df))
    by (apply (groupby_In label_compare); auto).
  assert (Hcf := build_forecast_category _ _ _ _ _ _ Hout Hg).
  destruct (category_forecast_ok _ _ _ _ _ Hcf) as (ts & last & Hts & _ & Hfc & _).
  assert (Hne : group <> []) by (apply (get_group_nonempty label_compare); exact Hc).
  assert (Hnd := build_series_inv group ts Hts Hne).
  destruct (build_series_regular group Hne Hnd)
    as (ts' & lo & hi & Hts' & _ & _ & Hb' & Hidx & _).
  rewrite Hts in Hts'. inv Hts'.
  assert (Hag : In (Month a) (map Month group)).
  { apply in_map. apply (get_group_In label_compare). auto. }
  assert (Hbg : In (Month b) (map Month group)).
  { apply in_map. apply (get_group_In label_compare). auto. }
  assert (Hlen : 6 <= Z.of_nat (List.length ts')).
  { rewrite <- (length_map fst ts'), Hidx.
    pose proof (Hb' _ Hag). pose proof (Hb' _ Hbg).
    rewrite date_range_length; lia. }
  exists ts'. split; [ exact Hts | split; [ exact Hlen | ] ].
  rewrite forecast_series_engine in Hfc by exact Hlen. exact Hfc.
Qed.

Lemma engine_consulted_by_span_witness :
  exists ts,
    build_series [ mkRow Sample.jan24 "Tax" (-10); mkRow (Sample.jan24 + 5) "Tax" (-30) ]
      = Ok ts
    /\ 6 <= Z.of_nat (List.length ts)
    /\ Sample.flat_engine ts 1 = Ok [-7].
Proof.
  destruct (engine_consulted_by_span Sample.flat_engine
              [ mkRow Sample.jan24 "Tax" (-10); mkRow (Sample.jan24 + 5) "Tax" (-30) ]
              1
              [ mkForecastRow (Sample.jan24 + 6) "Tax" (-7) ]
              (mkRow Sample.jan24 "Tax" (-10))
              (mkRow (Sample.jan24 + 5) "Tax" (-30)))
    as (ts & Hts & Hlen & Hans).
  - reflexivity.
  - simpl. auto.
  - simpl. auto.
  - reflexivity.
  - simpl. lia.
  - exists ts. auto.
Defined.

(* ------------------------------------------------------------------ *)
(** ** A longer horizon appends rows                                   *)
(* ------------------------------------------------------------------ *)

Section HorizonPrefix.
Context {A : Type} `{Dtype A}.

Lemma combine_repeat {T U : Type} (l : list T) (v : U) :
  combine l (repeat v (List.length l)) = map (fun x => (x, v)) l.
Proof. induction l as [ | x l IH ]; simpl; congruence. Qed.

(** The frame of a category on the fallback path, written out. *)
Lemma category_forecast_naive (periods : Z) (c : string)
    (group : list (Row A)) (rows : list (ForecastRow A)) :
  category_forecast None periods (c, group) = Ok rows ->
  exists ts last v,
    build_series group = Ok ts
    /\ index_last ts = Ok last
    /\ iloc_last ts = Ok v
    /\ rows = map (fun m => mkForecastRow m c v)
                  (months_from (last + 1) (Z.to_nat periods)).
Proof.
  unfold category_forecast. cbn [fst snd forecast_series]. intros Hr.
  destruct (build_series group) as [ts | e]; cbn [bind] in Hr; [ | discriminate ].
  unfold naive_forecast in Hr.
  destruct (iloc_last ts) as [v | e] eqn:Ev; cbn [bind] in Hr; [ | discriminate ].
  destruct (index_last ts) as [last | e] eqn:El; cbn [bind] in Hr; [ | discriminate ].
  exists ts, last, v.
  split; [ reflexivity | split; [ exact El | split; [ exact Ev | ] ] ].
  unfold DataFrame, date_range_periods in Hr.
  remember (months_from (last + 1) (Z.to_nat periods)) as idx eqn:Ei.
  assert (Hlen : List.length idx = Z.to_nat periods)
    by (subst idx; apply months_from_length).
  rewrite <- Hlen, repeat_length, Nat.eqb_refl, combine_repeat, map_map in Hr.
  inv Hr. reflexivity.
Qed.

Lemma months_from_firstn (start : Z) (n n' : nat) :
  (n <= n')%nat -> firstn n (months_from start n') = months_from start n.
Proof.
  revert start n'. induction n as [ | n IH ]; intros start n' Hle.
  - reflexivity.
  - destruct n' as [ | n' ]; [ lia | ].
    rewrite !months_from_succ. simpl. f_equal. apply IH. lia.
Qed.
End HorizonPrefix.

(** X15.  Without an engine a longer horizon only appends rows: for every
    category, the forecast rows for [periods] months are the first
    [periods] of the forecast rows for any longer horizon. *)
Theorem longer_horizon_appends {A : Type} `{Dtype A}
    (df : list (Row A)) (periods periods' : Z)
    (out out' : list (ForecastRow A)) (c : string) :
  0 <= periods <= periods' ->
  build_forecast None df periods = Ok out ->
  build_forecast None df periods' = Ok out' ->
  In c (map Category df) ->
  category_rows c out = firstn (Z.to_nat periods) (category_rows c out').
Proof.
  intros Hp Hout Hout' Hc.
  assert (Hg : In (c, get_group label_compare Category c df)
                  (groupby label_compare Category df))
    by (apply (groupby_In label_compare); auto).
  assert (E := build_forecast_category _ _ _ _ _ _ Hout Hg).
  assert (E' := build_forecast_category _ _ _ _ _ _ Hout' Hg).
  apply category_forecast_naive in E, E'.
  destruct E as (ts & last & v & Hts & Hl & Hv & ->).
  destruct E' as (ts' & last' & v' & Hts' & Hl' & Hv' & ->).
  rewrite Hts in Hts'. inv Hts'.
  rewrite Hl in Hl'. inv Hl'. rewrite Hv in Hv'. inv Hv'.
  rewrite firstn_map, months_from_firstn by lia. reflexivity.
Qed.

Lemma longer_horizon_appends_witness :
  category_rows "Rent"%string
    match build_forecast None (aggregate_by_month Sample.rent_ledger) 2 with
    | Ok out => out
    | Raise _ => []
    end
  = firstn 2 (category_rows "Rent"%string (Forecast_sheet Sample.book)).
Proof.
  apply (longer_horizon_appends (aggregate_by_month Sample.rent_ledger) 2 6).
  - lia.
  - reflexivity.
  - reflexivity.
  - vm_compute. auto.
Defined.
